(** * MessagingPeer: the gossip mesh of src/App.tsx

    A shallow embedding of the [MessagingPeer] class: its fields as a record,
    its methods and event listeners as computations in a small
    state/exception/output monad, and the events the transport (PeerJS)
    delivers as an inductive type with a dispatcher.  The one call into the
    transport, [peer.connect], is modelled as PeerJS behaves, on a peer that
    is connected to its server and on one that has lost it.  Of the React
    part of the file only the text of the chat view is modelled. *)

From Stdlib Require Import String List Bool Arith Lia.
Import ListNotations.
Open Scope string_scope.

Set Implicit Arguments.

(** ** Wire data (lines 6-22) *)

Module ChatLine.
Record t : Type := mk { id : string; sender : string; content : string }.

Definition eq_dec (x y : t) : {x = y} + {x <> y}.
Proof. decide equality; apply string_dec. Defined.
End ChatLine.

Inductive Message : Type :=
| SeedsMessage (peerIds : list string)        (* type: 'seeds' *)
| ChatMessage (lines : list ChatLine.t).      (* type: 'chat' *)

(** The [type] tag of a message, as the debug line of the data listener
    prints it. *)
Definition messageType (m : Message) : string :=
  match m with
  | SeedsMessage _ => "seeds"
  | ChatMessage _ => "chat"
  end.

(** ** What the transport hands over *)

(** The value of a peer [error] event: the listener reads its [type] and
    otherwise treats it as opaque. *)
Module PeerError.
Record t : Type := mk { type : string; message : string }.
End PeerError.

(** [conn.metadata]: what the initiating side attached to the connection.
    [peerIds] may be missing (the listener reads it with [?? []]). *)
Module Metadata.
Record t : Type := mk { peerIds : option (list string) }.

Definition eq_dec (x y : t) : {x = y} + {x <> y}.
Proof.
  decide equality.
  decide equality. apply (list_eq_dec string_dec).
Defined.
End Metadata.

(** Object identity of a connection: created here by [peer.connect] (numbered
    by the local [Peer] object) or accepted from a remote initiator. *)
Inductive ConnRef : Type :=
| Dialed (n : nat)
| Accepted (n : nat).

Module DataConnection.
Record t : Type := mk {
  peer : string;                     (* identity of the remote side *)
  metadata : option Metadata.t;      (* [None]: undefined *)
  ref : ConnRef
}.

Definition eq_dec (x y : t) : {x = y} + {x <> y}.
Proof.
  decide equality.
  - decide equality; apply Nat.eq_dec.
  - decide equality. apply Metadata.eq_dec.
  - apply string_dec.
Defined.
End DataConnection.

Record PeerConnectOption : Type := {
  opt_metadata : Metadata.t;
  serialization : string
}.

(** ** [Map<string, V>] with insertion order (line 35)

    [Array.from(m.keys())] lists the keys in insertion order, and [set] on a
    key already present keeps its position, so the map is an association
    list with the operations of a JavaScript [Map]. *)

Module JsMap.
Section Ops.
Variable V : Type.

Definition t := list (string * V).

Definition keys (m : t) : list string := map fst m.
Definition values (m : t) : list V := map snd m.

Fixpoint has (k : string) (m : t) : bool :=
  match m with
  | [] => false
  | (k', _) :: m' => if String.eqb k k' then true else has k m'
  end.

Fixpoint set (k : string) (v : V) (m : t) : t :=
  match m with
  | [] => [(k, v)]
  | (k', v') :: m' =>
      if String.eqb k k' then (k, v) :: m' else (k', v') :: set k v m'
  end.

Definition delete (k : string) (m : t) : t :=
  filter (fun kv => negb (String.eqb k (fst kv))) m.
End Ops.
End JsMap.

(** ** lodash [uniqBy] (line 116)

    lodash walks the array once, keeps the keys it has seen, and keeps a
    value when its key is new. *)

Section UniqBy.
Variable A : Type.
Variable iteratee : A -> string.

Definition includes (seen : list string) (k : string) : bool :=
  existsb (String.eqb k) seen.

Fixpoint baseUniq (seen : list string) (array : list A) : list A :=
  match array with
  | [] => []
  | value :: rest =>
      let computed := iteratee value in
      if includes seen computed then baseUniq seen rest
      else value :: baseUniq (seen ++ [computed]) rest
  end.

Definition uniqBy (array : list A) : list A := baseUniq [] array.

(** The same, said as the words of the specification, "keep the first
    occurrence of each id": a value stays, and every later value with its
    key goes. *)
Fixpoint firstOccurrences (array : list A) : list A :=
  match array with
  | [] => []
  | value :: rest =>
      value :: filter (fun x => negb (String.eqb (iteratee x) (iteratee value)))
                      (firstOccurrences rest)
  end.
End UniqBy.

(** ** [randomId] (lines 24-28)

    The two arguments are the two [Math.random().toString(36)] strings;
    [substring(7)] drops their first seven characters. *)

Definition substringFrom (n : nat) (s : string) : string :=
  substring n (String.length s - n) s.

Definition randomId (rand1 rand2 : string) : string :=
  let a := substringFrom 7 rand1 in
  let b := substringFrom 7 rand2 in
  a ++ "-" ++ b.

(** ** The object state (lines 31-38) *)

(** [lastError] is declared [string | null]; the error listener stores
    either one of its two texts or the error value it was given. *)
Inductive ErrorValue : Type :=
| ErrorText (s : string)
| ErrorRaw (e : PeerError.t).

Record MessagingPeer : Type := {
  username : option string;
  peerId : string;
  dialed : nat;                 (* state of [this.peer]: connections it has created *)
  disconnected : bool;          (* state of [this.peer]: the link to the server is lost *)
  connections : JsMap.t DataConnection.t;
  conversation : list ChatLine.t;
  isLoading : bool;
  lastError : option ErrorValue;
  listening : list DataConnection.t
    (* the connections that carry this object's data/close/error/open
       listeners, one entry per registration *)
}.

Definition PeerIDSeed : string := "407d10227d90".

(** ** Effects on the outside world *)

Inductive Effect : Type :=
| NewPeer (id : string)                                   (* new Peer(id) *)
| Connect (peerId : string) (opts : PeerConnectOption)    (* this.peer.connect *)
| ConnSend (conn : DataConnection.t) (msg : Message)      (* conn.send *)
| Emit (event : string)                                   (* this.emit *)
| ConsoleDebug (text : string)
| ConsoleError (e : PeerError.t).

Inductive Exn : Type :=
| Error (msg : string)        (* throw new Error(msg) *)
| TypeError.                  (* property read on undefined *)

(** ** The monad of a method body

    A body runs on the object state, may write effects, and either returns,
    throws, or (for the recursion of [handleNewConnection] and
    [connectToPeer]) runs out of the depth it was given. *)

Inductive Outcome (A : Type) : Type :=
| Returns (a : A) (st : MessagingPeer) (out : list Effect)
| Throws (e : Exn) (st : MessagingPeer) (out : list Effect)
| Exhausted.

Arguments Exhausted {A}.
Arguments Throws {A} e st out.

Definition M (A : Type) : Type := MessagingPeer -> Outcome A.

Definition ret {A} (a : A) : M A := fun st => Returns a st [].

Definition bind {A B} (m : M A) (f : A -> M B) : M B :=
  fun st =>
    match m st with
    | Returns a st1 out1 =>
        match f a st1 with
        | Returns b st2 out2 => Returns b st2 (out1 ++ out2)
        | Throws e st2 out2 => Throws e st2 (out1 ++ out2)
        | Exhausted => Exhausted
        end
    | Throws e st1 out1 => Throws e st1 out1
    | Exhausted => Exhausted
    end.

Declare Scope js_scope.
Delimit Scope js_scope with js.
Notation "x <- m ;; k" := (bind m (fun x => k))
  (at level 61, m at next level, right associativity) : js_scope.
Notation "m ;; k" := (bind m (fun _ => k))
  (at level 61, right associativity) : js_scope.
Open Scope js_scope.

Definition this : M MessagingPeer := fun st => Returns st st [].
Definition assign (f : MessagingPeer -> MessagingPeer) : M unit :=
  fun st => Returns tt (f st) [].
Definition perform (e : Effect) : M unit := fun st => Returns tt st [e].
Definition throw {A} (e : Exn) : M A := fun st => Throws e st [].
Definition exhausted {A} : M A := fun _ => Exhausted.

Fixpoint forEach {A} (l : list A) (f : A -> M unit) : M unit :=
  match l with
  | [] => ret tt
  | x :: l' => f x ;; forEach l' f
  end.

(** Field updates. *)

Definition set_dialed (n : nat) (st : MessagingPeer) : MessagingPeer :=
  {| username := username st; peerId := peerId st; dialed := n;
     disconnected := disconnected st;
     connections := connections st; conversation := conversation st;
     isLoading := isLoading st; lastError := lastError st;
     listening := listening st |}.

Definition set_connections (c : JsMap.t DataConnection.t) (st : MessagingPeer)
  : MessagingPeer :=
  {| username := username st; peerId := peerId st; dialed := dialed st;
     disconnected := disconnected st;
     connections := c; conversation := conversation st;
     isLoading := isLoading st; lastError := lastError st;
     listening := listening st |}.

Definition set_conversation (c : list ChatLine.t) (st : MessagingPeer)
  : MessagingPeer :=
  {| username := username st; peerId := peerId st; dialed := dialed st;
     disconnected := disconnected st;
     connections := connections st; conversation := c;
     isLoading := isLoading st; lastError := lastError st;
     listening := listening st |}.

Definition set_isLoading (b : bool) (st : MessagingPeer) : MessagingPeer :=
  {| username := username st; peerId := peerId st; dialed := dialed st;
     disconnected := disconnected st;
     connections := connections st; conversation := conversation st;
     isLoading := b; lastError := lastError st;
     listening := listening st |}.

Definition set_lastError (e : option ErrorValue) (st : MessagingPeer)
  : MessagingPeer :=
  {| username := username st; peerId := peerId st; dialed := dialed st;
     disconnected := disconnected st;
     connections := connections st; conversation := conversation st;
     isLoading := isLoading st; lastError := e;
     listening := listening st |}.

Definition set_disconnected (b : bool) (st : MessagingPeer) : MessagingPeer :=
  {| username := username st; peerId := peerId st; dialed := dialed st;
     disconnected := b;
     connections := connections st; conversation := conversation st;
     isLoading := isLoading st; lastError := lastError st;
     listening := listening st |}.

Definition set_listening (l : list DataConnection.t) (st : MessagingPeer)
  : MessagingPeer :=
  {| username := username st; peerId := peerId st; dialed := dialed st;
     disconnected := disconnected st;
     connections := connections st; conversation := conversation st;
     isLoading := isLoading st; lastError := lastError st;
     listening := l |}.

(** ** The class (lines 30-178) *)

Section Class.

(** lodash [kebabCase], used only to derive the identity from the name. *)
Variable kebabCase : string -> string.

(** How deep [handleNewConnection] and [connectToPeer] may call each other
    in the embedding; [handleNewConnection_depth] below shows that any depth
    from 2 on gives the same result, so nothing is cut off. *)
Definition callDepth : nat := 2.

(** Lines 40-46.  A name that is the empty string is falsy and gives the
    seed identity. *)
Definition constructor (name : option string) : MessagingPeer * list Effect :=
  let pid :=
    match name with
    | Some u => if String.eqb u "" then PeerIDSeed
                else PeerIDSeed ++ "-" ++ kebabCase u
    | None => PeerIDSeed
    end in
  ({| username := name; peerId := pid; dialed := 0; disconnected := false;
      connections := [];
      conversation := []; isLoading := true; lastError := None;
      listening := [] |},
   [NewPeer pid]).

(** Lines 144-148. *)
Definition send (msg : Message) : M unit :=
  st <- this ;;
  forEach (JsMap.values (connections st)) (fun conn => perform (ConnSend conn msg)).

(** [this.peer.on('error', ...)], lines 49-63. *)
Definition onPeerError (error : PeerError.t) : M unit :=
  perform (ConsoleError error) ;;
  assign (set_isLoading false) ;;
  st <- this ;;
  (if String.eqb (PeerError.type error) "peer-unavailable" then
     assign (set_lastError (Some (ErrorText "peer is unreachable")))
   else if String.eqb (PeerError.type error) "unavailable-id" then
     assign (set_lastError (Some (ErrorText (peerId st ++ " is already taken"))))
   else
     assign (set_lastError (Some (ErrorRaw error)))) ;;
  perform (Emit "update").

(** The error that PeerJS raises when [connect] is called on a peer whose
    link to the signalling server is lost. *)
Definition disconnectedError : PeerError.t :=
  PeerError.mk "disconnected"
               "Cannot connect to new Peer after disconnecting from server.".

(** [this.peer.connect(peerId, opts)] (line 96), as PeerJS does it.  On a
    peer that is connected to the server the transport is asked for a
    connection and a new connection object to that identity comes back,
    carrying the metadata of [opts].  On a peer that has lost the server,
    PeerJS emits the [disconnected] error - which runs the error listener
    above at once - and returns [undefined]. *)
Definition peer_connect (pid : string) (opts : PeerConnectOption)
  : M (option DataConnection.t) :=
  st <- this ;;
  if disconnected st then
    onPeerError disconnectedError ;;
    ret None
  else
    assign (set_dialed (S (dialed st))) ;;
    perform (Connect pid opts) ;;
    ret (Some (DataConnection.mk pid (Some (opt_metadata opts))
                                 (Dialed (dialed st)))).

(** [conn.on('data' | 'close' | 'error' | 'open', ...)] (lines 107-141):
    the four listeners are attached together. *)
Definition attachListeners (conn : DataConnection.t) : M unit :=
  assign (fun st => set_listening (listening st ++ [conn]) st).

(** Lines 84-98, with the call of [handleNewConnection] left open.  When
    [connect] returned [undefined], [handleNewConnection] throws a TypeError
    at its first line (102), where it reads [conn.peer]. *)
Definition connectToPeerWith (handle : DataConnection.t -> M unit)
  (pid : string) : M unit :=
  st <- this ;;
  if JsMap.has pid (connections st) || String.eqb pid (peerId st) then ret tt
  else
    perform (ConsoleDebug ("[" ++ peerId st ++ "] connecting to " ++ pid)) ;;
    let opts := {| opt_metadata := Metadata.mk (Some (JsMap.keys (connections st)));
                   serialization := "json" |} in
    conn <- peer_connect pid opts ;;
    match conn with
    | Some c => handle c
    | None => throw TypeError
    end.

(** Lines 100-142. *)
Fixpoint handleNewConnection (depth : nat) (conn : DataConnection.t) : M unit :=
  match depth with
  | O => exhausted
  | S depth' =>
      st <- this ;;
      if JsMap.has (DataConnection.peer conn) (connections st) then ret tt
      else
        peerIds <- match DataConnection.metadata conn with
                   | None => throw TypeError
                   | Some md =>
                       ret (match Metadata.peerIds md with
                            | Some l => l
                            | None => []
                            end)
                   end ;;
        forEach peerIds (connectToPeerWith (handleNewConnection depth')) ;;
        attachListeners conn
  end.

Definition connectToPeer (pid : string) : M unit :=
  connectToPeerWith (handleNewConnection (pred callDepth)) pid.

(** The [data] listener, lines 107-120. *)
Definition onData (conn : DataConnection.t) (data : Message) : M unit :=
  st <- this ;;
  perform (ConsoleDebug ("[" ++ peerId st ++ "] peer " ++ DataConnection.peer conn
                         ++ " sent a message type=" ++ messageType data)) ;;
  match data with
  | SeedsMessage peerIds => forEach peerIds connectToPeer
  | ChatMessage lines =>
      assign (fun st => set_conversation (conversation st ++ lines) st) ;;
      assign (fun st => set_conversation (uniqBy ChatLine.id (conversation st)) st)
  end ;;
  perform (Emit "update").

(** The [close] and [error] listeners, lines 122-123. *)
Definition onClose (conn : DataConnection.t) : M unit :=
  assign (fun st =>
    set_connections (JsMap.delete (DataConnection.peer conn) (connections st)) st).

Definition onConnError (conn : DataConnection.t) : M unit :=
  assign (fun st =>
    set_connections (JsMap.delete (DataConnection.peer conn) (connections st)) st).

(** The [open] listener, lines 125-141. *)
Definition onOpen (conn : DataConnection.t) : M unit :=
  assign (fun st =>
    set_connections (JsMap.set (DataConnection.peer conn) conn (connections st)) st) ;;
  st <- this ;;
  send (SeedsMessage (JsMap.keys (connections st))) ;;
  st <- this ;;
  send (ChatMessage (conversation st)) ;;
  perform (ConsoleDebug ("[" ++ peerId st ++ "] peer " ++ DataConnection.peer conn
                         ++ " connected")).

(** [this.peer.on('connection', ...)], lines 66-69. *)
Definition onPeerConnection (conn : DataConnection.t) : M unit :=
  st <- this ;;
  perform (ConsoleDebug ("[" ++ peerId st ++ "] peer " ++ DataConnection.peer conn
                         ++ " reached us")) ;;
  handleNewConnection callDepth conn.

(** [this.peer.on('open', ...)], lines 72-81. *)
Definition onPeerOpen : M unit :=
  assign (set_isLoading false) ;;
  assign (set_lastError None) ;;
  st <- this ;;
  perform (ConsoleDebug ("[" ++ peerId st ++ "] connected")) ;;
  perform (Emit "update") ;;
  connectToPeer PeerIDSeed.

(** Lines 162-177; [rand1] and [rand2] are the two random strings that
    [randomId] draws. *)
Definition sendMessage (rand1 rand2 msg : string) : M unit :=
  st <- this ;;
  if isLoading st then throw (Error "not ready yet")
  else
    let line := {| ChatLine.id := randomId rand1 rand2;
                   ChatLine.content := msg;
                   ChatLine.sender := match username st with
                                      | Some u => u
                                      | None => "seed"
                                      end |} in
    assign (fun st => set_conversation (conversation st ++ [line]) st) ;;
    send (ChatMessage [line]).

(** ** Events and their dispatch *)

Inductive Event : Type :=
| PeerErrorEvent (error : PeerError.t)
| PeerConnectionEvent (conn : DataConnection.t)
| PeerOpenEvent
| DataEvent (conn : DataConnection.t) (data : Message)
| CloseEvent (conn : DataConnection.t)
| ConnErrorEvent (conn : DataConnection.t)
| OpenEvent (conn : DataConnection.t)
| SendMessageCall (rand1 rand2 msg : string)
| PeerDisconnectedEvent.
    (* the peer lost the server (PeerJS [disconnected]); the class has no
       listener for it, only [this.peer] changes *)

Fixpoint times (n : nat) (m : M unit) : M unit :=
  match n with
  | O => ret tt
  | S n' => m ;; times n' m
  end.

(** An event of a connection runs the listener once for every time the
    listeners were attached to that connection object, and does nothing on a
    connection that carries none. *)
Definition fire (conn : DataConnection.t) (listener : M unit) : M unit :=
  st <- this ;;
  times (count_occ DataConnection.eq_dec (listening st) conn) listener.

Definition step (ev : Event) : M unit :=
  match ev with
  | PeerErrorEvent error => onPeerError error
  | PeerConnectionEvent conn => onPeerConnection conn
  | PeerOpenEvent => onPeerOpen
  | DataEvent conn data => fire conn (onData conn data)
  | CloseEvent conn => fire conn (onClose conn)
  | ConnErrorEvent conn => fire conn (onConnError conn)
  | OpenEvent conn => fire conn (onOpen conn)
  | SendMessageCall rand1 rand2 msg => sendMessage rand1 rand2 msg
  | PeerDisconnectedEvent => assign (set_disconnected true)
  end.

(** A run of events; a listener that throws leaves the state it reached and
    the next event is served.  [None] only if a listener is cut off by the
    call depth, which [run_total] excludes. *)
Fixpoint run (evs : list Event) (st : MessagingPeer)
  : option (MessagingPeer * list Effect) :=
  match evs with
  | [] => Some (st, [])
  | ev :: evs' =>
      match step ev st with
      | Returns _ st1 out1 | Throws _ st1 out1 =>
          match run evs' st1 with
          | Some (st2, out2) => Some (st2, (out1 ++ out2)%list)
          | None => None
          end
      | Exhausted => None
      end
  end.

End Class.

(** ** Vocabulary of the statements *)

(** The number of distinct ids of a chat log. *)
Definition distinctIds (log : list ChatLine.t) : nat :=
  length (nodup string_dec (map ChatLine.id log)).

(** What [connectToPeer pid] passes to the transport in state [st], the
    connection object it gets back, and the state it leaves: one more
    connection created, and the listeners attached to it. *)
Definition dialOpts (st : MessagingPeer) : PeerConnectOption :=
  {| opt_metadata := Metadata.mk (Some (JsMap.keys (connections st)));
     serialization := "json" |}.

Definition dialedConn (pid : string) (st : MessagingPeer) : DataConnection.t :=
  DataConnection.mk pid (Some (opt_metadata (dialOpts st))) (Dialed (dialed st)).

Definition afterDial (pid : string) (st : MessagingPeer) : MessagingPeer :=
  set_listening (listening st ++ [dialedConn pid st])
                (set_dialed (S (dialed st)) st).

Definition dialOutput (pid : string) (st : MessagingPeer) : list Effect :=
  [ConsoleDebug ("[" ++ peerId st ++ "] connecting to " ++ pid);
   Connect pid (dialOpts st)].

(** The state and the output of [connectToPeer pid] on a peer that has lost
    the server: the error listener has run on the [disconnected] error of
    PeerJS, and then the TypeError is thrown. *)
Definition failedDial (st : MessagingPeer) : MessagingPeer :=
  set_lastError (Some (ErrorRaw disconnectedError)) (set_isLoading false st).

Definition failedDialOutput (pid : string) (st : MessagingPeer) : list Effect :=
  [ConsoleDebug ("[" ++ peerId st ++ "] connecting to " ++ pid);
   ConsoleError disconnectedError;
   Emit "update"].

(** The effects of [send msg] on a connection map. *)
Definition sendOutput (msg : Message) (conns : JsMap.t DataConnection.t)
  : list Effect :=
  map (fun conn => ConnSend conn msg) (JsMap.values conns).

(** Invariants of a computation: [I] holds in the state the computation
    leaves, whether it returns or throws, and the computation is not cut
    off. *)
Definition okAt (I : MessagingPeer -> Prop) {A} (o : Outcome A) : Prop :=
  match o with
  | Returns _ st _ | Throws _ st _ => I st
  | Exhausted => False
  end.

Definition keeps (I : MessagingPeer -> Prop) {A} (m : M A) : Prop :=
  forall st, I st -> okAt I (m st).

(** The transport names the remote side of a connection it accepts: that
    side is another participant, not the local identity [self]. *)
Definition fromRemote (self : string) (ev : Event) : Prop :=
  match ev with
  | PeerConnectionEvent conn => DataConnection.peer conn <> self
  | _ => True
  end.

(** No self-loop: the identity is [self], the connection map has no entry
    for it, and no connection to it carries listeners. *)
Definition noSelfLoop (self : string) (st : MessagingPeer) : Prop :=
  peerId st = self /\
  JsMap.has self (connections st) = false /\
  Forall (fun conn => DataConnection.peer conn <> self) (listening st).

(** Every entry of the connection map is filed under the identity of its
    remote side. *)
Definition keyedByPeer (st : MessagingPeer) : Prop :=
  Forall (fun kv => DataConnection.peer (snd kv) = fst kv) (connections st).

(** What C1 says of the sends of the [open] listener: they all go to the
    connection that opened. *)
Definition gossipsToNewPeerOnly (conn : DataConnection.t) (out : list Effect)
  : Prop :=
  forall c m, In (ConnSend c m) out -> c = conn.

(** Whether a connection is open as far as the transport has reported:
    its last [open], [close] or [error] event was [open]. *)
Definition reportsOpen (conn : DataConnection.t) (was : bool) (ev : Event)
  : bool :=
  match ev with
  | OpenEvent c => if DataConnection.eq_dec c conn then true else was
  | CloseEvent c | ConnErrorEvent c =>
      if DataConnection.eq_dec c conn then false else was
  | _ => was
  end.

Definition currentlyOpen (evs : list Event) (conn : DataConnection.t) : bool :=
  fold_left (reportsOpen conn) evs false.

(** ** Sample peers and events

    Concrete inputs on which the statements below are exercised.  The names
    are in kebab case already, so the identity function stands for
    [kebabCase] on them. *)

Definition sampleKebab (s : string) : string := s.

Definition stateAfter (evs : list Event) (st : MessagingPeer) : MessagingPeer :=
  match run evs st with
  | Some (st', _) => st'
  | None => st
  end.

Definition seedPeer : MessagingPeer := fst (constructor sampleKebab None).
Definition alicePeer : MessagingPeer :=
  fst (constructor sampleKebab (Some "alice")).

(** Two participants that reach the seed peer. *)
Definition connA : DataConnection.t :=
  DataConnection.mk "407d10227d90-a" (Some (Metadata.mk (Some []))) (Accepted 0).
Definition connB : DataConnection.t :=
  DataConnection.mk "407d10227d90-b" (Some (Metadata.mk (Some []))) (Accepted 1).

(** The seed peer once it is open and [connA] is open, with [connB]
    accepted and not yet open. *)
Definition seedWithA : MessagingPeer :=
  stateAfter [PeerOpenEvent; PeerConnectionEvent connA; OpenEvent connA;
              PeerConnectionEvent connB] seedPeer.

(** Alice's connection to the seed, and a run in which her own identity
    comes back to her in a seeds message and in the metadata of a connection
    she accepts. *)
Definition aliceToSeed : DataConnection.t :=
  DataConnection.mk "407d10227d90" (Some (Metadata.mk (Some []))) (Dialed 0).
Definition carolToAlice : DataConnection.t :=
  DataConnection.mk "407d10227d90-carol"
    (Some (Metadata.mk (Some ["407d10227d90"; "407d10227d90-alice"])))
    (Accepted 0).
Definition aliceEvents : list Event :=
  [PeerOpenEvent;
   OpenEvent aliceToSeed;
   DataEvent aliceToSeed
     (SeedsMessage ["407d10227d90"; "407d10227d90-alice"; "407d10227d90-bob"]);
   PeerConnectionEvent carolToAlice;
   OpenEvent carolToAlice;
   SendMessageCall "0.4fzyo82mvyr" "0.9ix3k1c0qzb" "hello"].

(** Alice and Bob learn of each other from the seed and dial each other:
    Alice has the connection she created and the one she accepted from Bob;
    both open, and then the one she created closes. *)
Definition aliceToBob : DataConnection.t :=
  DataConnection.mk "407d10227d90-bob"
    (Some (Metadata.mk (Some ["407d10227d90"]))) (Dialed 1).
Definition bobToAlice : DataConnection.t :=
  DataConnection.mk "407d10227d90-bob"
    (Some (Metadata.mk (Some ["407d10227d90"]))) (Accepted 0).
Definition crossedDialEvents : list Event :=
  [PeerOpenEvent;
   OpenEvent aliceToSeed;
   DataEvent aliceToSeed
     (SeedsMessage ["407d10227d90"; "407d10227d90-alice"; "407d10227d90-bob"]);
   PeerConnectionEvent bobToAlice;
   OpenEvent aliceToBob;
   OpenEvent bobToAlice;
   CloseEvent aliceToBob].

(** An error of the transport that is neither of the two the listener
    knows. *)
Definition networkError : PeerError.t :=
  PeerError.mk "network" "Lost connection to server.".

(** Two calls of [sendMessage] whose random numbers are 0.5 and 0.25, then
    0.75 and 0.5: in base 36 these are three characters long, so nothing is
    left of them after the seventh character. *)
Definition shortRandomEvents : list Event :=
  [PeerOpenEvent;
   SendMessageCall "0.i" "0.9" "hi";
   SendMessageCall "0.r" "0.i" "yo"].

(** ** Vocabulary of the further statements *)

(** The guard of [connectToPeer] (line 86), the identities of a list that
    pass it, and the state and output of dialing them one after the other. *)
Definition dialGuard (st : MessagingPeer) (pid : string) : bool :=
  JsMap.has pid (connections st) || String.eqb pid (peerId st).

Definition dialTargets (st : MessagingPeer) (peerIds : list string)
  : list string :=
  filter (fun pid => negb (dialGuard st pid)) peerIds.

Definition dialAll (targets : list string) (st : MessagingPeer) : MessagingPeer :=
  fold_left (fun s pid => afterDial pid s) targets st.

Definition dialAllOutput (targets : list string) (st : MessagingPeer)
  : list Effect :=
  flat_map (fun pid => dialOutput pid st) targets.

(** What dialing the identities of a list comes to: on a peer that is
    connected to the server every target is dialed; on a peer that has lost
    the server the first target fails, and the rest is never reached. *)
Definition dialOutcome (st : MessagingPeer) (peerIds : list string)
  : Outcome unit :=
  if disconnected st then
    match dialTargets st peerIds with
    | [] => Returns tt st []
    | pid :: _ => Throws TypeError (failedDial st) (failedDialOutput pid st)
    end
  else
    Returns tt (dialAll (dialTargets st peerIds) st)
               (dialAllOutput (dialTargets st peerIds) st).

(** The identities that an output asks the transport to connect to. *)
Definition connectTargets (out : list Effect) : list string :=
  flat_map (fun e => match e with
                     | Connect pid _ => [pid]
                     | _ => []
                     end) out.

(** The ids of the chat log of a peer. *)
Definition chatIds (st : MessagingPeer) : list string :=
  map ChatLine.id (conversation st).

(** A computation that keeps [I] and writes only effects that satisfy [P]. *)
Definition yieldsAt (I : MessagingPeer -> Prop) (P : Effect -> Prop) {A}
  (o : Outcome A) : Prop :=
  match o with
  | Returns _ st out | Throws _ st out => I st /\ Forall P out
  | Exhausted => False
  end.

Definition yields (I : MessagingPeer -> Prop) (P : Effect -> Prop) {A}
  (m : M A) : Prop :=
  forall st, I st -> yieldsAt I P (m st).

(** The text of the chat view (ChatPage, lines 253-254): one line
    "sender: content" per chat line, joined by newlines; the chat of a peer
    that does not exist yet is empty. *)
Definition newline : string :=
  String (Ascii.Ascii false true false true false false false false) EmptyString.

Definition renderLine (l : ChatLine.t) : string :=
  ChatLine.sender l ++ ": " ++ ChatLine.content l.

Definition pageChat (peer : option MessagingPeer) : list ChatLine.t :=
  match peer with
  | Some p => conversation p
  | None => []
  end.

Definition chatHistory (chat : list ChatLine.t) : string :=
  String.concat newline (map renderLine chat).

(** Further sample inputs: a connection whose initiator attached no
    metadata, one that lists identities, a second connection object to the
    identity of [connB], and a chat line. *)
Definition bareConn : DataConnection.t :=
  DataConnection.mk "407d10227d90-x" None (Accepted 7).
Definition daveConn : DataConnection.t :=
  DataConnection.mk "407d10227d90-dave"
    (Some (Metadata.mk (Some ["407d10227d90"; "407d10227d90-a";
                              "407d10227d90-erin"; "407d10227d90-erin"])))
    (Accepted 2).
Definition connB2 : DataConnection.t :=
  DataConnection.mk "407d10227d90-b" (Some (Metadata.mk (Some []))) (Accepted 9).
Definition aliceLine : ChatLine.t :=
  ChatLine.mk "82mvyr-1c0qzb" "alice" "hello".
Definition seedOpen : MessagingPeer := stateAfter [PeerOpenEvent] seedPeer.

(** The seed peer of [seedWithA] after it has lost the server, and a list
    of identities as a seeds message may carry it. *)
Definition seedOffline : MessagingPeer :=
  stateAfter [PeerDisconnectedEvent] seedWithA.
Definition sampleSeeds : list string :=
  ["407d10227d90"; "407d10227d90-a"; "407d10227d90-erin"; "407d10227d90-frank"].

(** * Properties *)

(** ** The map *)

Module JsMapFacts.
Section Facts.
Variable V : Type.
Implicit Types (m : JsMap.t V) (k : string) (v : V).

Lemma has_true_iff k m : JsMap.has k m = true <-> In k (JsMap.keys m).
Proof.
  induction m as [|[k' v'] m IH]; simpl.
  - split; [discriminate | contradiction].
  - destruct (String.eqb_spec k k') as [->|Hne].
    + split; auto.
    + rewrite IH. split; [auto | intros [E|H]; [congruence | exact H]].
Qed.

Lemma has_false_iff k m : JsMap.has k m = false <-> ~ In k (JsMap.keys m).
Proof.
  rewrite <- has_true_iff. destruct (JsMap.has k m); split; congruence.
Qed.

Lemma keys_set k v m :
  JsMap.keys (JsMap.set k v m) =
  if JsMap.has k m then JsMap.keys m else (JsMap.keys m ++ [k])%list.
Proof.
  induction m as [|[k' v'] m IH]; simpl; [reflexivity|].
  destruct (String.eqb_spec k k') as [->|Hne]; simpl; [reflexivity|].
  rewrite IH. destruct (JsMap.has k m); reflexivity.
Qed.

Lemma in_keys_set k v m k0 :
  In k0 (JsMap.keys (JsMap.set k v m)) <-> k0 = k \/ In k0 (JsMap.keys m).
Proof.
  rewrite keys_set. destruct (JsMap.has k m) eqn:E.
  - apply has_true_iff in E. split; [auto | intros [->|H]; assumption].
  - rewrite in_app_iff. simpl. intuition congruence.
Qed.

Lemma has_set k v m k0 :
  JsMap.has k0 (JsMap.set k v m) = String.eqb k0 k || JsMap.has k0 m.
Proof.
  apply eq_true_iff_eq. rewrite orb_true_iff, !has_true_iff, in_keys_set.
  rewrite String.eqb_eq. reflexivity.
Qed.

Lemma in_values_set k v m : In v (JsMap.values (JsMap.set k v m)).
Proof.
  induction m as [|[k' v'] m IH]; simpl; [auto|].
  destruct (String.eqb k k'); simpl; auto.
Qed.

Lemma in_set_inv k v m kv :
  In kv (JsMap.set k v m) -> kv = (k, v) \/ In kv m.
Proof.
  induction m as [|[k' v'] m IH]; simpl.
  - intros [<-|[]]; auto.
  - destruct (String.eqb k k'); simpl; intros [<-|H]; auto.
    destruct (IH H); auto.
Qed.

Lemma NoDup_keys_set k v m :
  NoDup (JsMap.keys m) -> NoDup (JsMap.keys (JsMap.set k v m)).
Proof.
  intros H. rewrite keys_set. destruct (JsMap.has k m) eqn:E; [exact H|].
  apply has_false_iff in E.
  apply NoDup_app; [exact H | repeat constructor; simpl; tauto |].
  intros x Hx [<-|[]]. exact (E Hx).
Qed.

Lemma in_keys_delete k m k0 :
  In k0 (JsMap.keys (JsMap.delete k m)) <-> k0 <> k /\ In k0 (JsMap.keys m).
Proof.
  unfold JsMap.delete, JsMap.keys. rewrite !in_map_iff. split.
  - intros [[k1 v1] [<- H]]. apply filter_In in H. destruct H as [H Hk]. simpl in *.
    apply negb_true_iff, String.eqb_neq in Hk. split; [congruence|].
    exists (k1, v1). auto.
  - intros [Hne [[k1 v1] [<- H]]]. exists (k1, v1). split; [reflexivity|].
    apply filter_In. split; [exact H|]. simpl in *.
    apply negb_true_iff, String.eqb_neq. congruence.
Qed.

Lemma has_delete k m k0 :
  JsMap.has k0 (JsMap.delete k m) = negb (String.eqb k0 k) && JsMap.has k0 m.
Proof.
  apply eq_true_iff_eq.
  rewrite andb_true_iff, negb_true_iff, !has_true_iff, in_keys_delete, String.eqb_neq.
  reflexivity.
Qed.
End Facts.
End JsMapFacts.

(** ** [uniqBy] keeps the first occurrence of each key *)

Section UniqByFacts.
Variable A : Type.
Variable f : A -> string.

Lemma includes_app seen k k' :
  includes (seen ++ [k']) k = includes seen k || String.eqb k k'.
Proof.
  unfold includes. rewrite existsb_app. simpl. rewrite orb_false_r. reflexivity.
Qed.

Lemma filter_filter (p q : A -> bool) l :
  filter p (filter q l) = filter (fun x => q x && p x) l.
Proof.
  induction l as [|x l IH]; simpl; [reflexivity|].
  destruct (q x); simpl; [destruct (p x)|]; rewrite ?IH; reflexivity.
Qed.

Lemma baseUniq_filter seen l :
  baseUniq f seen l =
  filter (fun x => negb (includes seen (f x))) (firstOccurrences f l).
Proof.
  revert seen. induction l as [|x l IH]; intros seen; simpl; [reflexivity|].
  destruct (includes seen (f x)) eqn:E; simpl.
  - rewrite IH, filter_filter. apply filter_ext_in. intros y _.
    destruct (String.eqb_spec (f y) (f x)) as [->|Hne]; simpl; [|reflexivity].
    rewrite E. reflexivity.
  - f_equal. rewrite IH, filter_filter. apply filter_ext. intros y.
    rewrite includes_app, negb_orb. apply andb_comm.
Qed.

(** The loop of lodash computes what the words say. *)
Lemma uniqBy_firstOccurrences l : uniqBy f l = firstOccurrences f l.
Proof.
  unfold uniqBy. rewrite baseUniq_filter. simpl.
  induction (firstOccurrences f l) as [|x r IH]; simpl; congruence.
Qed.

Lemma NoDup_map_filter (p : A -> bool) l :
  NoDup (map f l) -> NoDup (map f (filter p l)).
Proof.
  induction l as [|x l IH]; simpl; intros H; [constructor|].
  inversion H as [|? ? Hx Hl]; subst.
  destruct (p x); simpl; [constructor|]; auto.
  intros Hin. apply Hx. apply in_map_iff in Hin. destruct Hin as [y [E Hy]].
  apply filter_In in Hy. rewrite <- E. apply in_map. tauto.
Qed.

Lemma firstOccurrences_NoDup l : NoDup (map f (firstOccurrences f l)).
Proof.
  induction l as [|x l IH]; simpl; constructor.
  - intros Hin. apply in_map_iff in Hin. destruct Hin as [y [E Hy]].
    apply filter_In in Hy. destruct Hy as [_ Hy].
    rewrite E, String.eqb_refl in Hy. discriminate.
  - apply NoDup_map_filter, IH.
Qed.

Lemma firstOccurrences_incl l x : In x (firstOccurrences f l) -> In x l.
Proof.
  revert x. induction l as [|y l IH]; simpl; intros x; [tauto|].
  intros [->|H]; [auto|]. apply filter_In in H. right. apply IH. tauto.
Qed.

Lemma find_filter (p q : A -> bool) l :
  (forall x, p x = true -> q x = true) ->
  find p (filter q l) = find p l.
Proof.
  intros Hpq. induction l as [|x l IH]; simpl; [reflexivity|].
  destruct (q x) eqn:Eq; simpl.
  - rewrite IH. reflexivity.
  - destruct (p x) eqn:Ep; [|exact IH]. rewrite (Hpq x Ep) in Eq. discriminate.
Qed.

(** For every key, the value that represents it afterwards is the first
    value that carried it. *)
Lemma firstOccurrences_find k l :
  find (fun x => String.eqb (f x) k) (firstOccurrences f l) =
  find (fun x => String.eqb (f x) k) l.
Proof.
  induction l as [|x l IH]; simpl; [reflexivity|].
  destruct (String.eqb_spec (f x) k) as [E|Hne]; [reflexivity|].
  rewrite find_filter; [exact IH|].
  intros y Hy. apply String.eqb_eq in Hy. apply negb_true_iff, String.eqb_neq.
  congruence.
Qed.

Lemma firstOccurrences_keys k l :
  In k (map f (firstOccurrences f l)) <-> In k (map f l).
Proof.
  split.
  - intros H. apply in_map_iff in H. destruct H as [x [<- Hx]].
    apply in_map, firstOccurrences_incl, Hx.
  - intros H.
    assert (Hf : exists x, find (fun x => String.eqb (f x) k) l = Some x).
    { apply in_map_iff in H. destruct H as [x [E Hx]].
      destruct (find (fun x => String.eqb (f x) k) l) eqn:Ef; [eauto|].
      apply (find_none _ _ Ef) in Hx. rewrite E, String.eqb_refl in Hx. discriminate. }
    destruct Hf as [x Hf]. rewrite <- firstOccurrences_find in Hf.
    apply find_some in Hf. destruct Hf as [Hin Hk].
    apply String.eqb_eq in Hk. rewrite <- Hk. apply in_map, Hin.
Qed.

(** A list whose keys are already distinct is left as it is. *)
Lemma firstOccurrences_id l : NoDup (map f l) -> firstOccurrences f l = l.
Proof.
  induction l as [|x l IH]; simpl; intros H; [reflexivity|].
  inversion H as [|? ? Hx Hl]; subst. rewrite (IH Hl). f_equal.
  apply forallb_filter_id, forallb_forall. intros y Hy.
  apply negb_true_iff, String.eqb_neq. intros E. apply Hx. rewrite <- E.
  apply in_map, Hy.
Qed.
End UniqByFacts.

Lemma distinctIds_same_ids (l1 l2 : list ChatLine.t) :
  (forall k, In k (map ChatLine.id l1) <-> In k (map ChatLine.id l2)) ->
  distinctIds l1 = distinctIds l2.
Proof.
  intros H. unfold distinctIds. apply Nat.le_antisymm;
    (apply NoDup_incl_length; [apply NoDup_nodup|]);
    intros k Hk; apply nodup_In; apply nodup_In in Hk; apply H, Hk.
Qed.

(** ** Running method bodies *)

Ltac run_body :=
  unfold bind, this, assign, perform, ret, throw, exhausted; simpl.

Lemma forEach_perform A (e : A -> Effect) l st :
  forEach l (fun x => perform (e x)) st = Returns tt st (map e l).
Proof.
  induction l as [|x l IH]; simpl; [reflexivity|].
  unfold bind at 1. simpl. rewrite IH. reflexivity.
Qed.

Lemma send_spec msg st :
  send msg st = Returns tt st (sendOutput msg (connections st)).
Proof.
  unfold send, bind, this. rewrite forEach_perform. reflexivity.
Qed.

Lemma forEach_ext A (f g : A -> M unit) l :
  (forall x st, f x st = g x st) ->
  forall st, forEach l f st = forEach l g st.
Proof.
  intros H. induction l as [|x l IH]; intros st; simpl; [reflexivity|].
  unfold bind. rewrite H. destruct (g x st); [rewrite IH|..]; reflexivity.
Qed.

(** ** [connectToPeer] and [handleNewConnection] *)

Lemma connectToPeerWith_known handle pid st :
  JsMap.has pid (connections st) || String.eqb pid (peerId st) = true ->
  connectToPeerWith handle pid st = Returns tt st [].
Proof.
  intros H. unfold connectToPeerWith, bind, this. rewrite H. reflexivity.
Qed.

Lemma forEach_known handle l st :
  (forall pid, In pid l -> JsMap.has pid (connections st) = true) ->
  forEach l (connectToPeerWith handle) st = Returns tt st [].
Proof.
  induction l as [|pid l IH]; intros H; simpl; [reflexivity|].
  unfold bind. rewrite connectToPeerWith_known.
  - rewrite IH; [reflexivity|]. intros p Hp. apply H. right. exact Hp.
  - rewrite H; [reflexivity | left; reflexivity].
Qed.

Lemma handleNewConnection_S depth conn :
  handleNewConnection (S depth) conn =
  (st <- this ;;
   if JsMap.has (DataConnection.peer conn) (connections st) then ret tt
   else
     peerIds <- match DataConnection.metadata conn with
                | None => throw TypeError
                | Some md => ret (match Metadata.peerIds md with
                                  | Some l => l
                                  | None => []
                                  end)
                end ;;
     forEach peerIds (connectToPeerWith (handleNewConnection depth)) ;;
     attachListeners conn).
Proof. reflexivity. Qed.

(** The connection that [connectToPeer] has just created names only
    identities of the connection map, so registering it dials nobody. *)
Lemma handleNewConnection_dialed depth pid st :
  JsMap.has pid (connections st) = false ->
  handleNewConnection (S depth) (dialedConn pid st) (set_dialed (S (dialed st)) st)
  = Returns tt (afterDial pid st) [].
Proof.
  intros H. rewrite handleNewConnection_S.
  unfold bind at 1. unfold this at 1. cbv beta iota.
  change (JsMap.has (DataConnection.peer (dialedConn pid st))
            (connections (set_dialed (S (dialed st)) st)))
    with (JsMap.has pid (connections st)).
  rewrite H. unfold bind at 1.
  change (DataConnection.metadata (dialedConn pid st))
    with (Some (Metadata.mk (Some (JsMap.keys (connections st))))).
  unfold ret at 1. cbv beta iota.
  change (Metadata.peerIds (Metadata.mk (Some (JsMap.keys (connections st)))))
    with (Some (JsMap.keys (connections st))). cbv beta iota.
  unfold bind at 1. rewrite forEach_known.
  - reflexivity.
  - intros p Hp. apply JsMapFacts.has_true_iff. exact Hp.
Qed.

Lemma onPeerError_disconnected st :
  onPeerError disconnectedError st =
  Returns tt (failedDial st) [ConsoleError disconnectedError; Emit "update"].
Proof. reflexivity. Qed.

Lemma connectToPeerWith_fresh depth pid st :
  JsMap.has pid (connections st) || String.eqb pid (peerId st) = false ->
  disconnected st = false ->
  connectToPeerWith (handleNewConnection (S depth)) pid st
  = Returns tt (afterDial pid st) (dialOutput pid st).
Proof.
  intros H Hd. unfold connectToPeerWith, bind at 1, this at 1. rewrite H.
  apply orb_false_iff in H. destruct H as [H _].
  unfold bind at 1. unfold perform at 1.
  unfold bind at 1. unfold peer_connect. unfold bind at 1. unfold this at 1.
  rewrite Hd. unfold bind at 1. unfold assign at 1.
  unfold bind at 1. unfold perform at 1. unfold ret at 1.
  pose proof (handleNewConnection_dialed depth pid st H) as E.
  unfold dialedConn, dialOpts in E. cbn [opt_metadata] in E.
  cbn [opt_metadata]. rewrite E. reflexivity.
Qed.

(** On a peer that has lost the server the request fails: PeerJS reports
    the error to the error listener and returns nothing, and reading
    [conn.peer] throws. *)
Lemma connectToPeerWith_offline handle pid st :
  JsMap.has pid (connections st) || String.eqb pid (peerId st) = false ->
  disconnected st = true ->
  connectToPeerWith handle pid st
  = Throws TypeError (failedDial st) (failedDialOutput pid st).
Proof.
  intros H Hd. unfold connectToPeerWith, bind at 1, this at 1. rewrite H.
  unfold bind at 1. unfold perform at 1.
  unfold bind at 1. unfold peer_connect. unfold bind at 1. unfold this at 1.
  rewrite Hd. unfold bind at 1. rewrite onPeerError_disconnected.
  reflexivity.
Qed.

Lemma connectToPeerWith_spec depth pid st :
  connectToPeerWith (handleNewConnection (S depth)) pid st =
  if JsMap.has pid (connections st) || String.eqb pid (peerId st)
  then Returns tt st []
  else if disconnected st
       then Throws TypeError (failedDial st) (failedDialOutput pid st)
       else Returns tt (afterDial pid st) (dialOutput pid st).
Proof.
  destruct (JsMap.has pid (connections st) || String.eqb pid (peerId st)) eqn:E.
  - apply connectToPeerWith_known, E.
  - destruct (disconnected st) eqn:Hd.
    + apply connectToPeerWith_offline; assumption.
    + apply connectToPeerWith_fresh; assumption.
Qed.

Lemma connectToPeer_spec pid st :
  connectToPeer pid st =
  if JsMap.has pid (connections st) || String.eqb pid (peerId st)
  then Returns tt st []
  else if disconnected st
       then Throws TypeError (failedDial st) (failedDialOutput pid st)
       else Returns tt (afterDial pid st) (dialOutput pid st).
Proof. apply connectToPeerWith_spec. Qed.

(** Depth 2 is all the recursion ever uses: a deeper bound changes
    nothing. *)
Lemma handleNewConnection_depth depth conn st :
  handleNewConnection (S (S depth)) conn st = handleNewConnection callDepth conn st.
Proof.
  unfold callDepth.
  rewrite (handleNewConnection_S (S depth)), (handleNewConnection_S 1).
  unfold bind at 1 4. unfold this. cbv beta iota.
  destruct (JsMap.has (DataConnection.peer conn) (connections st)); [reflexivity|].
  unfold bind at 1 3.
  destruct (DataConnection.metadata conn) as [md|]; [|reflexivity].
  unfold ret at 1 2. cbv beta iota. unfold bind.
  rewrite (forEach_ext _ (connectToPeerWith (handleNewConnection 1))).
  - reflexivity.
  - intros pid st0. rewrite !connectToPeerWith_spec. reflexivity.
Qed.

(** ** Invariants of method bodies *)

Section Keeps.
Variable I : MessagingPeer -> Prop.

Lemma keeps_ret A (a : A) : keeps I (ret a).
Proof. intros st H. exact H. Qed.

Lemma keeps_throw A e : keeps I (@throw A e).
Proof. intros st H. exact H. Qed.

Lemma keeps_perform e : keeps I (perform e).
Proof. intros st H. exact H. Qed.

Lemma keeps_assign f : (forall st, I st -> I (f st)) -> keeps I (assign f).
Proof. intros Hf st H. apply Hf, H. Qed.

Lemma keeps_bind A B (m : M A) (k : A -> M B) :
  keeps I m -> (forall a, keeps I (k a)) -> keeps I (bind m k).
Proof.
  intros Hm Hk st H. unfold bind. specialize (Hm st H).
  destruct (m st) as [a st1 out1|e st1 out1|]; simpl in Hm; [|exact Hm|exact Hm].
  specialize (Hk a st1 Hm). destruct (k a st1); exact Hk.
Qed.

Lemma keeps_read B (k : MessagingPeer -> M B) :
  (forall st, I st -> okAt I (k st st)) -> keeps I (bind this k).
Proof.
  intros Hk st H. unfold bind, this. specialize (Hk st H).
  destruct (k st st); exact Hk.
Qed.

Lemma keeps_forEach A (f : A -> M unit) l :
  (forall x, In x l -> keeps I (f x)) -> keeps I (forEach l f).
Proof.
  induction l as [|x l IH]; intros Hf; simpl.
  - apply keeps_ret.
  - apply keeps_bind; [apply Hf; left; reflexivity|].
    intros _. apply IH. intros y Hy. apply Hf. right. exact Hy.
Qed.

Lemma keeps_times n (m : M unit) : keeps I m -> keeps I (times n m).
Proof.
  intros Hm. induction n as [|n IH]; simpl.
  - apply keeps_ret.
  - apply keeps_bind; [exact Hm | intros _; exact IH].
Qed.

Lemma keeps_connectToPeerWith depth pid :
  (forall st, I st ->
     JsMap.has pid (connections st) || String.eqb pid (peerId st) = false ->
     I (afterDial pid st)) ->
  (forall st, I st -> I (failedDial st)) ->
  keeps I (connectToPeerWith (handleNewConnection (S depth)) pid).
Proof.
  intros Hd Hf st H. rewrite connectToPeerWith_spec.
  destruct (JsMap.has pid (connections st) || String.eqb pid (peerId st)) eqn:E;
    [exact H|].
  destruct (disconnected st); simpl; auto.
Qed.

Lemma keeps_handleNewConnection conn :
  (forall pid st, I st ->
     JsMap.has pid (connections st) || String.eqb pid (peerId st) = false ->
     I (afterDial pid st)) ->
  (forall st, I st -> I (failedDial st)) ->
  keeps I (attachListeners conn) ->
  keeps I (handleNewConnection callDepth conn).
Proof.
  intros Hd Hf Ha. unfold callDepth. rewrite handleNewConnection_S.
  apply keeps_read. intros st H.
  destruct (JsMap.has (DataConnection.peer conn) (connections st)); [exact H|].
  revert st H. apply keeps_bind.
  - destruct (DataConnection.metadata conn); [apply keeps_ret | apply keeps_throw].
  - intros peerIds. apply keeps_bind; [|intros _; exact Ha].
    apply keeps_forEach. intros pid _.
    apply (keeps_connectToPeerWith 0); [apply Hd | exact Hf].
Qed.
End Keeps.

(** ** [sendMessage] *)

Lemma sendMessage_spec rand1 rand2 msg st :
  sendMessage rand1 rand2 msg st =
  if isLoading st then Throws (Error "not ready yet") st []
  else
    let line := {| ChatLine.id := randomId rand1 rand2;
                   ChatLine.sender := match username st with
                                      | Some u => u
                                      | None => "seed"
                                      end;
                   ChatLine.content := msg |} in
    Returns tt (set_conversation (conversation st ++ [line]) st)
               (sendOutput (ChatMessage [line]) (connections st)).
Proof.
  unfold sendMessage, bind at 1, this at 1.
  destruct (isLoading st); [reflexivity|].
  unfold bind, assign. rewrite send_spec. reflexivity.
Qed.

(** C2: while the peer is loading, [sendMessage] throws the "not ready yet"
    error, sends nothing on any connection and leaves the object, hence the
    chat log, as it was; and it throws if and only if the peer is loading. *)
Theorem sendMessage_loading_throws rand1 rand2 msg st :
  (isLoading st = true ->
   sendMessage rand1 rand2 msg st = Throws (Error "not ready yet") st []) /\
  ((exists e st' out, sendMessage rand1 rand2 msg st = Throws e st' out)
   <-> isLoading st = true).
Proof.
  rewrite sendMessage_spec. destruct (isLoading st).
  - split; [reflexivity|]. split; [reflexivity|]. intros _.
    exists (Error "not ready yet"), st, []. reflexivity.
  - split; [discriminate|]. split; [|discriminate].
    intros [e [st' [out H]]]. discriminate.
Qed.

(** C3, as the code has it: when the peer is not loading, [sendMessage]
    builds one line with the id generated in this call - what follows the
    seventh character of the first random string, a hyphen, and what follows
    the seventh character of the second -, the given text and the user name
    (or "seed" without a name) as sender, appends it to the chat log, which
    grows by exactly one entry, and sends a chat message holding just that
    line on every connection of the connection map, in the order of the
    map. *)
Theorem sendMessage_appends_and_fans_out rand1 rand2 msg st :
  isLoading st = false ->
  let line := {| ChatLine.id :=
                   substring 7 (String.length rand1 - 7) rand1 ++ "-" ++
                   substring 7 (String.length rand2 - 7) rand2;
                 ChatLine.sender := match username st with
                                    | Some u => u
                                    | None => "seed"
                                    end;
                 ChatLine.content := msg |} in
  exists st',
    sendMessage rand1 rand2 msg st =
      Returns tt st'
        (map (fun conn => ConnSend conn (ChatMessage [line]))
             (JsMap.values (connections st))) /\
    conversation st' = (conversation st ++ [line])%list /\
    length (conversation st') = S (length (conversation st)) /\
    connections st' = connections st.
Proof.
  intros E line.
  exists (set_conversation (conversation st ++ [line]) st).
  split; [|split; [reflexivity|split; [|reflexivity]]].
  - rewrite sendMessage_spec, E. reflexivity.
  - simpl. rewrite length_app. simpl. lia.
Qed.

(** ** The [data] listener *)

Lemma onData_chat_spec conn lines st :
  onData conn (ChatMessage lines) st =
  Returns tt
    (set_conversation (firstOccurrences ChatLine.id (conversation st ++ lines)) st)
    [ConsoleDebug ("[" ++ peerId st ++ "] peer " ++ DataConnection.peer conn
                   ++ " sent a message type=chat");
     Emit "update"].
Proof.
  unfold onData. run_body. rewrite uniqBy_firstOccurrences. reflexivity.
Qed.

(** C4: on a chat message the listener appends the received lines to the
    chat log in the order received, then keeps of every id its first
    occurrence only, in that order, and emits [update]. *)
Theorem onData_chat_merges conn lines st :
  exists st',
    onData conn (ChatMessage lines) st =
      Returns tt st'
        [ConsoleDebug ("[" ++ peerId st ++ "] peer " ++ DataConnection.peer conn
                       ++ " sent a message type=chat");
         Emit "update"] /\
    conversation st' = uniqBy ChatLine.id (conversation st ++ lines) /\
    conversation st' = firstOccurrences ChatLine.id (conversation st ++ lines) /\
    NoDup (map ChatLine.id (conversation st')) /\
    (forall k,
       find (fun l => String.eqb (ChatLine.id l) k) (conversation st') =
       find (fun l => String.eqb (ChatLine.id l) k)
            (conversation st ++ lines)%list) /\
    (forall l, In l (conversation st') -> In l (conversation st ++ lines)%list) /\
    (NoDup (map ChatLine.id (conversation st ++ lines)) ->
     conversation st' = (conversation st ++ lines)%list) /\
    connections st' = connections st /\
    isLoading st' = isLoading st /\
    lastError st' = lastError st /\
    listening st' = listening st /\
    peerId st' = peerId st.
Proof.
  eexists. split; [apply onData_chat_spec|]. simpl.
  split; [symmetry; apply uniqBy_firstOccurrences|].
  split; [reflexivity|]. split; [apply firstOccurrences_NoDup|].
  split; [intros k; apply firstOccurrences_find|].
  split; [intros l; apply firstOccurrences_incl|].
  split; [apply firstOccurrences_id|]. repeat split.
Qed.

(** ** The peer [error] listener *)

(** What the error listener does, for each kind of error: on an error of
    the transport the listener clears [isLoading], sets
    the error field - "peer is unreachable" for a [peer-unavailable] error,
    "<identity> is already taken" with the local identity for an
    [unavailable-id] error, and for any other error the error as it was
    delivered - and emits [update]; it asks the transport for nothing, so
    nothing is tried again. *)
Theorem onPeerError_classifies error st :
  let value :=
    if String.eqb (PeerError.type error) "peer-unavailable" then
      ErrorText "peer is unreachable"
    else if String.eqb (PeerError.type error) "unavailable-id" then
      ErrorText (peerId st ++ " is already taken")
    else ErrorRaw error in
  exists st',
    onPeerError error st = Returns tt st' [ConsoleError error; Emit "update"] /\
    isLoading st' = false /\
    lastError st' = Some value /\
    peerId st' = peerId st /\
    connections st' = connections st /\
    conversation st' = conversation st /\
    listening st' = listening st.
Proof.
  intros value.
  exists (set_lastError (Some value) (set_isLoading false st)).
  split; [|repeat split].
  unfold onPeerError, value. run_body.
  destruct (String.eqb (PeerError.type error) "peer-unavailable"); [reflexivity|].
  destruct (String.eqb (PeerError.type error) "unavailable-id"); reflexivity.
Qed.

(** ** The [open] listener *)

Lemma onOpen_spec conn st :
  let conns := JsMap.set (DataConnection.peer conn) conn (connections st) in
  onOpen conn st =
  Returns tt (set_connections conns st)
    (sendOutput (SeedsMessage (JsMap.keys conns)) conns ++
     sendOutput (ChatMessage (conversation st)) conns ++
     [ConsoleDebug ("[" ++ peerId st ++ "] peer " ++ DataConnection.peer conn
                    ++ " connected")]).
Proof.
  intros conns. unfold onOpen.
  unfold bind at 1. unfold assign at 1.
  unfold bind at 1. unfold this at 1.
  unfold bind at 1. rewrite send_spec.
  unfold bind at 1. unfold this at 1.
  unfold bind at 1. rewrite send_spec.
  unfold perform. reflexivity.
Qed.

Lemma in_sendOutput c m msg conns :
  In (ConnSend c m) (sendOutput msg conns) <->
  m = msg /\ In c (JsMap.values conns).
Proof.
  unfold sendOutput. rewrite in_map_iff. split.
  - intros [c' [E H]]. inversion E; subst. auto.
  - intros [-> H]. exists c. auto.
Qed.

Lemma emit_not_in_sendOutput event msg conns :
  ~ In (Emit event) (sendOutput msg conns).
Proof.
  unfold sendOutput. rewrite in_map_iff. intros [c [E _]]. discriminate.
Qed.

(** C1, as the code has it: when a connection opens, the listener files it
    in the connection map under the remote identity and then sends, on every
    connection of the map (the new one among them), first a seeds message
    listing all keys of the map and then a chat message with the whole chat
    log; these sends and one debug line are all it does. *)
Theorem onOpen_gossips_to_all_connections conn st :
  let conns := JsMap.set (DataConnection.peer conn) conn (connections st) in
  onOpen conn st =
    Returns tt (set_connections conns st)
      (map (fun c => ConnSend c (SeedsMessage (JsMap.keys conns)))
           (JsMap.values conns) ++
       map (fun c => ConnSend c (ChatMessage (conversation st)))
           (JsMap.values conns) ++
       [ConsoleDebug ("[" ++ peerId st ++ "] peer " ++ DataConnection.peer conn
                      ++ " connected")]) /\
  In conn (JsMap.values conns) /\
  In (DataConnection.peer conn) (JsMap.keys conns).
Proof.
  intros conns. split; [apply onOpen_spec|]. split.
  - apply JsMapFacts.in_values_set.
  - apply JsMapFacts.in_keys_set. left. reflexivity.
Qed.

Lemma keyedByPeer_values st c :
  keyedByPeer st -> In c (JsMap.values (connections st)) ->
  In (DataConnection.peer c) (JsMap.keys (connections st)).
Proof.
  unfold keyedByPeer, JsMap.values, JsMap.keys. intros HK Hc.
  apply in_map_iff in Hc. destruct Hc as [[k c'] [E Hin]]. simpl in E. subst c'.
  rewrite Forall_forall in HK. specialize (HK _ Hin). simpl in HK. rewrite HK.
  apply (in_map fst _ _ Hin).
Qed.

Lemma keyedByPeer_set conn st :
  keyedByPeer st ->
  keyedByPeer
    (set_connections (JsMap.set (DataConnection.peer conn) conn (connections st)) st).
Proof.
  unfold keyedByPeer. simpl. rewrite !Forall_forall. intros HK kv Hin.
  apply JsMapFacts.in_set_inv in Hin. destruct Hin as [->|Hin]; [reflexivity|].
  apply HK, Hin.
Qed.

(** C9: the seeds message sent when a connection opens lists the keys of
    the connection map as it is after the new connection was filed, so the
    message that goes to the new connection names that connection's own
    remote identity; and where every entry of the map is filed under its
    remote identity, every recipient finds its own identity in the list. *)
Theorem onOpen_seeds_name_the_recipient conn st :
  exists st' out,
    onOpen conn st = Returns tt st' out /\
    connections st' = JsMap.set (DataConnection.peer conn) conn (connections st) /\
    In (ConnSend conn (SeedsMessage (JsMap.keys (connections st')))) out /\
    In (DataConnection.peer conn) (JsMap.keys (connections st')) /\
    (forall c ids, In (ConnSend c (SeedsMessage ids)) out ->
                   ids = JsMap.keys (connections st')) /\
    (keyedByPeer st ->
     forall c ids, In (ConnSend c (SeedsMessage ids)) out ->
                   In (DataConnection.peer c) ids).
Proof.
  pose proof (onOpen_spec conn st) as E. cbv zeta in E.
  eexists _, _. split; [exact E|]. simpl connections.
  assert (Hseeds : forall c ids,
    In (ConnSend c (SeedsMessage ids))
       (sendOutput (SeedsMessage (JsMap.keys
          (JsMap.set (DataConnection.peer conn) conn (connections st))))
          (JsMap.set (DataConnection.peer conn) conn (connections st)) ++
        sendOutput (ChatMessage (conversation st))
          (JsMap.set (DataConnection.peer conn) conn (connections st)) ++
        [ConsoleDebug ("[" ++ peerId st ++ "] peer " ++ DataConnection.peer conn
                       ++ " connected")]) ->
    ids = JsMap.keys (JsMap.set (DataConnection.peer conn) conn (connections st)) /\
    In c (JsMap.values (JsMap.set (DataConnection.peer conn) conn (connections st)))).
  { intros c ids H. rewrite !in_app_iff, !in_sendOutput in H.
    destruct H as [[H1 H2]|[[H1 _]|[H|[]]]]; try discriminate.
    inversion H1; subst. auto. }
  split; [reflexivity|]. split; [|split; [|split]].
  - apply in_or_app. left. apply in_sendOutput. split; [reflexivity|].
    apply JsMapFacts.in_values_set.
  - apply JsMapFacts.in_keys_set. left. reflexivity.
  - intros c ids H. apply (Hseeds c ids H).
  - intros HK c ids H. destruct (Hseeds c ids H) as [-> Hc].
    pose proof (keyedByPeer_set conn HK) as HK'.
    apply keyedByPeer_values with (1 := HK'). exact Hc.
Qed.

(** ** Invariants of the listeners and of runs *)

(** Turns a goal about the outcome at one state into a goal about the
    computation. *)
Ltac as_keeps :=
  lazymatch goal with
  | H : ?I ?s |- okAt ?I (?m ?s) =>
      let K := fresh "K" in
      assert (K : keeps I m); [clear H | exact (K s H)]
  end.

Section StepKeeps.
Variable I : MessagingPeer -> Prop.
Hypothesis I_dial : forall pid st,
  I st ->
  JsMap.has pid (connections st) || String.eqb pid (peerId st) = false ->
  I (afterDial pid st).
Hypothesis I_conversation : forall c st, I st -> I (set_conversation c st).
Hypothesis I_isLoading : forall b st, I st -> I (set_isLoading b st).
Hypothesis I_lastError : forall e st, I st -> I (set_lastError e st).
Hypothesis I_delete : forall k st,
  I st -> I (set_connections (JsMap.delete k (connections st)) st).
Hypothesis I_disconnected : forall b st, I st -> I (set_disconnected b st).

Lemma I_failedDial st : I st -> I (failedDial st).
Proof. intros H. apply I_lastError, I_isLoading, H. Qed.

Lemma keeps_connectToPeer pid : keeps I (connectToPeer pid).
Proof.
  apply (@keeps_connectToPeerWith I 0); [apply I_dial | apply I_failedDial].
Qed.

Lemma keeps_send msg : keeps I (send msg).
Proof. intros st H. rewrite send_spec. exact H. Qed.

Lemma keeps_onData conn data : keeps I (onData conn data).
Proof.
  unfold onData. apply keeps_read. intros st0 H0. as_keeps.
  apply keeps_bind; [apply keeps_perform|]. intros _.
  apply keeps_bind; [|intros _; apply keeps_perform].
  destruct data as [peerIds|lines].
  - apply keeps_forEach. intros pid _. apply keeps_connectToPeer.
  - apply keeps_bind; [|intros _]; apply keeps_assign; intros st;
      apply I_conversation.
Qed.

Lemma keeps_onClose conn : keeps I (onClose conn).
Proof. apply keeps_assign. intros st. apply I_delete. Qed.

Lemma keeps_onConnError conn : keeps I (onConnError conn).
Proof. apply keeps_assign. intros st. apply I_delete. Qed.

Lemma keeps_onOpen conn :
  (forall st, I st ->
     I (set_connections
          (JsMap.set (DataConnection.peer conn) conn (connections st)) st)) ->
  keeps I (onOpen conn).
Proof.
  intros Hset st H. rewrite onOpen_spec. apply Hset, H.
Qed.

Lemma keeps_onPeerError error : keeps I (onPeerError error).
Proof.
  unfold onPeerError.
  apply keeps_bind; [apply keeps_perform|]. intros _.
  apply keeps_bind; [apply keeps_assign, I_isLoading|]. intros _.
  apply keeps_read. intros st0 H0. as_keeps.
  apply keeps_bind; [|intros _; apply keeps_perform].
  destruct (String.eqb (PeerError.type error) "peer-unavailable");
    [|destruct (String.eqb (PeerError.type error) "unavailable-id")];
    apply keeps_assign, I_lastError.
Qed.

Lemma keeps_onPeerConnection conn :
  (forall st, I st -> I (set_listening (listening st ++ [conn]) st)) ->
  keeps I (onPeerConnection conn).
Proof.
  intros Hl. unfold onPeerConnection. apply keeps_read. intros st0 H0.
  as_keeps. apply keeps_bind; [apply keeps_perform|]. intros _.
  apply keeps_handleNewConnection; [exact I_dial | exact I_failedDial |].
  apply keeps_assign. exact Hl.
Qed.

Lemma keeps_onPeerOpen : keeps I onPeerOpen.
Proof.
  unfold onPeerOpen.
  apply keeps_bind; [apply keeps_assign, I_isLoading|]. intros _.
  apply keeps_bind; [apply keeps_assign, I_lastError|]. intros _.
  apply keeps_read. intros st0 H0. as_keeps.
  apply keeps_bind; [apply keeps_perform|]. intros _.
  apply keeps_bind; [apply keeps_perform|]. intros _.
  apply keeps_connectToPeer.
Qed.

Lemma keeps_sendMessage rand1 rand2 msg : keeps I (sendMessage rand1 rand2 msg).
Proof.
  intros st H. rewrite sendMessage_spec. destruct (isLoading st); [exact H|].
  apply I_conversation, H.
Qed.

Lemma keeps_fire conn (listener : M unit) :
  (forall st0, I st0 -> In conn (listening st0) -> keeps I listener) ->
  keeps I (fire conn listener).
Proof.
  intros Hl. unfold fire. apply keeps_read. intros st H.
  destruct (count_occ DataConnection.eq_dec (listening st) conn) as [|n] eqn:E.
  - exact H.
  - apply keeps_times; [|exact H]. apply (Hl st H).
    apply (count_occ_In DataConnection.eq_dec). lia.
Qed.

Lemma keeps_step ev :
  (forall conn, ev = PeerConnectionEvent conn ->
     forall st, I st -> I (set_listening (listening st ++ [conn]) st)) ->
  (forall conn, ev = OpenEvent conn ->
     forall st0, I st0 -> In conn (listening st0) ->
     forall st, I st ->
       I (set_connections
            (JsMap.set (DataConnection.peer conn) conn (connections st)) st)) ->
  keeps I (step ev).
Proof.
  intros Hconn Hopen. destruct ev; simpl.
  - apply keeps_onPeerError.
  - apply keeps_onPeerConnection. apply Hconn. reflexivity.
  - apply keeps_onPeerOpen.
  - apply keeps_fire. intros _ _ _. apply keeps_onData.
  - apply keeps_fire. intros _ _ _. apply keeps_onClose.
  - apply keeps_fire. intros _ _ _. apply keeps_onConnError.
  - apply keeps_fire. intros st0 H0 Hin. apply keeps_onOpen.
    apply (Hopen conn eq_refl st0 H0 Hin).
  - apply keeps_sendMessage.
  - apply keeps_assign. intros st. apply I_disconnected.
Qed.
End StepKeeps.

Lemma run_keeps (I : MessagingPeer -> Prop) evs :
  (forall ev, In ev evs -> keeps I (step ev)) ->
  forall st, I st -> exists st' out, run evs st = Some (st', out) /\ I st'.
Proof.
  induction evs as [|ev evs IH]; intros Hk st H; simpl.
  - exists st, []. auto.
  - pose proof (Hk ev (or_introl eq_refl) st H) as Hs.
    assert (Hrest : forall st1, I st1 ->
              exists st' out, run evs st1 = Some (st', out) /\ I st').
    { intros st1 H1. apply IH; [|exact H1]. intros e He. apply Hk. right. exact He. }
    destruct (step ev st) as [a st1 out1|e st1 out1|]; simpl in Hs; [| |contradiction];
      destruct (Hrest st1 Hs) as [st' [out [E H']]]; rewrite E; eauto.
Qed.

(** No listener is ever cut off by the call depth: every run of events goes
    through. *)
Lemma step_total ev st : step ev st <> Exhausted.
Proof.
  assert (H : keeps (fun _ => True) (step ev)) by (apply keeps_step; auto).
  specialize (H st Logic.I). intros E. rewrite E in H. exact H.
Qed.

Lemma run_total evs st : exists st' out, run evs st = Some (st', out).
Proof.
  assert (H : forall ev, In ev evs -> keeps (fun _ => True) (step ev))
    by (intros; apply keeps_step; auto).
  destruct (@run_keeps (fun _ => True) evs H st Logic.I) as [st' [out [E _]]].
  eauto.
Qed.

(** The usual case of an event: the listeners were attached to the
    connection once, and the event runs the listener once; on a connection
    without listeners the event does nothing. *)
Lemma fire_once conn (listener : M unit) st :
  count_occ DataConnection.eq_dec (listening st) conn = 1 ->
  fire conn listener st = listener st.
Proof.
  intros H. unfold fire, bind at 1, this. rewrite H. simpl.
  unfold bind, ret. destruct (listener st) as [[] st1 out1|e st1 out1|];
    simpl; rewrite ?app_nil_r; reflexivity.
Qed.

Lemma fire_unattached conn (listener : M unit) st :
  ~ In conn (listening st) ->
  fire conn listener st = Returns tt st [].
Proof.
  intros H. unfold fire, bind, this.
  rewrite (proj1 (count_occ_not_In DataConnection.eq_dec _ _) H). reflexivity.
Qed.

(** In every state of a run the connection map has one entry per key, and
    every entry is filed under the remote identity of its connection. *)
Lemma keyedByPeer_step ev :
  keeps (fun st => keyedByPeer st /\ NoDup (JsMap.keys (connections st))) (step ev).
Proof.
  apply keeps_step; auto.
  - intros k st [HK Hnd]. split.
    + unfold keyedByPeer in *. simpl. unfold JsMap.delete.
      rewrite Forall_forall in *. intros kv Hin. apply filter_In in Hin.
      apply HK. tauto.
    + simpl. unfold JsMap.delete, JsMap.keys in *.
      revert Hnd. generalize (connections st). intros m.
      induction m as [|[k' v'] m IH]; simpl; intros Hnd; [constructor|].
      inversion Hnd as [|? ? Hx Hm]; subst.
      destruct (negb (String.eqb k k')); simpl; [constructor|]; auto.
      intros Hin. apply Hx. apply in_map_iff in Hin.
      destruct Hin as [kv [E Hin]]. apply filter_In in Hin.
      rewrite <- E. apply in_map. tauto.
  - intros conn _ _ _ _ st [HK Hnd]. split.
    + apply keyedByPeer_set, HK.
    + simpl. apply JsMapFacts.NoDup_keys_set, Hnd.
Qed.

Lemma keyedByPeer_run kebabCase name evs :
  exists st out,
    run evs (fst (constructor kebabCase name)) = Some (st, out) /\
    keyedByPeer st /\ NoDup (JsMap.keys (connections st)).
Proof.
  apply (@run_keeps (fun st => keyedByPeer st /\ NoDup (JsMap.keys (connections st)))).
  - intros ev _. apply keyedByPeer_step.
  - split; constructor.
Qed.

(** ** No self-loop *)

Lemma noSelfLoop_constructor kebabCase name :
  noSelfLoop (peerId (fst (constructor kebabCase name)))
             (fst (constructor kebabCase name)).
Proof. repeat split. constructor. Qed.

Lemma noSelfLoop_step self ev :
  fromRemote self ev -> keeps (noSelfLoop self) (step ev).
Proof.
  intros Hev. apply keeps_step.
  - intros pid st [Hid [Hhas Hl]] E. apply orb_false_iff in E.
    destruct E as [_ E]. apply String.eqb_neq in E.
    repeat split; auto. simpl. apply Forall_app. split; [exact Hl|].
    constructor; [|constructor]. simpl. congruence.
  - intros c st H. exact H.
  - intros b st H. exact H.
  - intros e st H. exact H.
  - intros k st [Hid [Hhas Hl]]. repeat split; auto. simpl.
    rewrite JsMapFacts.has_delete, Hhas. apply andb_false_r.
  - intros b st H. exact H.
  - intros conn -> st [Hid [Hhas Hl]]. repeat split; auto. simpl.
    apply Forall_app. split; [exact Hl|]. constructor; [exact Hev|constructor].
  - intros conn _ st0 [_ [_ Hl0]] Hin st [Hid [Hhas Hl]].
    rewrite Forall_forall in Hl0. specialize (Hl0 conn Hin).
    repeat split; auto. simpl. rewrite JsMapFacts.has_set, Hhas, orb_false_r.
    apply String.eqb_neq. congruence.
Qed.

(** C6: start from a newly constructed peer and let any events happen - the
    peer opening, errors, connections accepted from remote identities,
    connections opening and closing, seeds and chat messages with any
    content, calls of [sendMessage]: the run goes through, and in the state
    it reaches the connection map has no entry for the peer's own identity,
    whatever identities the seeds messages and the connection metadata
    named. *)
Theorem no_self_connection (kebabCase : string -> string) name evs :
  let st0 := fst (constructor kebabCase name) in
  Forall (fromRemote (peerId st0)) evs ->
  exists st out,
    run evs st0 = Some (st, out) /\
    peerId st = peerId st0 /\
    ~ In (peerId st) (JsMap.keys (connections st)).
Proof.
  intros st0 Hevs.
  destruct (@run_keeps (noSelfLoop (peerId st0)) evs) with (st := st0)
    as [st [out [E [Hid [Hhas _]]]]].
  - intros ev Hev. apply noSelfLoop_step.
    rewrite Forall_forall in Hevs. apply Hevs, Hev.
  - apply noSelfLoop_constructor.
  - exists st, out. split; [exact E|]. split; [exact Hid|].
    rewrite Hid. apply JsMapFacts.has_false_iff. exact Hhas.
Qed.

(** ** Connecting to an identity of the connection map *)

(** C7: for an identity that has an entry in the connection map, a connect
    request returns at once - no connection is asked of the transport,
    nothing is sent, the object is unchanged - and so does the handling of a
    connection to that identity; and should a second connection to it open,
    it takes the place of the entry: the map keeps one entry per identity. *)
Theorem connect_to_known_identity_is_noop pid st :
  JsMap.has pid (connections st) = true ->
  connectToPeer pid st = Returns tt st [] /\
  (forall conn, DataConnection.peer conn = pid ->
     handleNewConnection callDepth conn st = Returns tt st []) /\
  (forall conn, DataConnection.peer conn = pid ->
     exists st' out,
       onOpen conn st = Returns tt st' out /\
       JsMap.keys (connections st') = JsMap.keys (connections st)) /\
  (NoDup (JsMap.keys (connections st)) ->
   forall conn, NoDup (JsMap.keys
                  (JsMap.set (DataConnection.peer conn) conn (connections st)))).
Proof.
  intros H. split; [|split; [|split]].
  - rewrite connectToPeer_spec, H. reflexivity.
  - intros conn <-. unfold callDepth. rewrite handleNewConnection_S.
    unfold bind, this. rewrite H. reflexivity.
  - intros conn <-. eexists _, _. split; [apply onOpen_spec|].
    simpl. rewrite JsMapFacts.keys_set, H. reflexivity.
  - intros Hnd conn. apply JsMapFacts.NoDup_keys_set, Hnd.
Qed.



(** ** Ids of the chat log *)

(** C5, as the code has it: after a chat message is merged no two lines of
    the chat log have the same id, and when every received line carries an
    id that the log already had, the number of distinct ids is unchanged;
    after [sendMessage] the ids of the log are distinct when they were
    distinct before and the generated id is not one of them. *)
Theorem chat_log_ids_distinct conn lines rand1 rand2 msg st :
  (exists st' out,
     onData conn (ChatMessage lines) st = Returns tt st' out /\
     NoDup (map ChatLine.id (conversation st')) /\
     ((forall l, In l lines ->
                 In (ChatLine.id l) (map ChatLine.id (conversation st))) ->
      distinctIds (conversation st') = distinctIds (conversation st))) /\
  (isLoading st = false ->
   NoDup (map ChatLine.id (conversation st)) ->
   ~ In (randomId rand1 rand2) (map ChatLine.id (conversation st)) ->
   exists st' out,
     sendMessage rand1 rand2 msg st = Returns tt st' out /\
     NoDup (map ChatLine.id (conversation st'))).
Proof.
  split.
  - eexists _, _. split; [apply onData_chat_spec|]. simpl.
    split; [apply firstOccurrences_NoDup|].
    intros Hin. apply distinctIds_same_ids. intros k.
    rewrite firstOccurrences_keys, map_app, in_app_iff. split; [|auto].
    intros [H|H]; [exact H|]. apply in_map_iff in H.
    destruct H as [l [<- Hl]]. apply Hin, Hl.
  - intros E Hnd Hfresh. rewrite sendMessage_spec, E. eexists _, _.
    split; [reflexivity|]. simpl. rewrite map_app. simpl.
    apply NoDup_app; [exact Hnd | repeat constructor; simpl; tauto|].
    intros k Hk [<-|[]]. exact (Hfresh Hk).
Qed.

(** ** The statements on the sample inputs *)

Ltac all_from_remote :=
  repeat (apply Forall_cons; [simpl; try exact Logic.I; try discriminate|]);
  apply Forall_nil.

(** C1 as it is written does not hold: on the seed peer with [connA] open,
    the opening of [connB] sends the seeds message to [connA] as well, and
    the listener emits no [update]. *)
Lemma onOpen_reaches_older_connections :
  exists st' out,
    onOpen connB seedWithA = Returns tt st' out /\
    In (ConnSend connA (SeedsMessage ["407d10227d90-a"; "407d10227d90-b"])) out /\
    ~ gossipsToNewPeerOnly connB out /\
    ~ In (Emit "update") out.
Proof.
  eexists _, _. split; [vm_compute; reflexivity|].
  split; [simpl; auto|]. split.
  - intros H. specialize (H connA (SeedsMessage ["407d10227d90-a"; "407d10227d90-b"])).
    simpl in H. discriminate H. auto.
  - simpl. intros H. repeat (destruct H as [H|H]; [discriminate H|]). exact H.
Qed.

(** C3 as it is written does not hold: after Alice and Bob have dialed each
    other, the connection that Alice accepted from Bob is open - the open
    listener has run on it and sent Bob the seeds, and the transport has
    reported neither close nor error for it - but the closing of the other
    connection to Bob has removed Bob from the connection map, and
    [sendMessage] sends the new line to the seed alone. *)
Lemma open_connection_can_miss_the_line :
  exists st out st' out',
    run crossedDialEvents alicePeer = Some (st, out) /\
    currentlyOpen crossedDialEvents bobToAlice = true /\
    In (ConnSend bobToAlice
          (SeedsMessage ["407d10227d90"; "407d10227d90-bob"])) out /\
    isLoading st = false /\
    sendMessage "0.4fzyo82mvyr" "0.9ix3k1c0qzb" "hello" st = Returns tt st' out' /\
    out' = [ConnSend aliceToSeed
              (ChatMessage [ChatLine.mk "82mvyr-1c0qzb" "alice" "hello"])] /\
    forall m, ~ In (ConnSend bobToAlice m) out'.
Proof.
  eexists _, _, _, _. split; [vm_compute; reflexivity|].
  split; [vm_compute; reflexivity|].
  split; [simpl; tauto|]. split; [reflexivity|].
  split; [vm_compute; reflexivity|]. split; [reflexivity|].
  intros m [H|[]]. discriminate H.
Qed.

(** C8: for an error of another kind the claim has the message of the
    error in the error field; the listener stores the error object itself
    there (line 59), in a field that is declared to hold a string: on the
    [network] error of PeerJS the field holds the object, with its type,
    and not the text "Lost connection to server.". *)
Lemma onPeerError_stores_the_error_object :
  exists st' out,
    onPeerError networkError seedOpen = Returns tt st' out /\
    lastError st' = Some (ErrorRaw networkError) /\
    lastError st' <> Some (ErrorText (PeerError.message networkError)) /\
    isLoading st' = false /\
    out = [ConsoleError networkError; Emit "update"].
Proof.
  eexists _, _. split; [vm_compute; reflexivity|].
  split; [reflexivity|]. split; [discriminate|]. split; reflexivity.
Qed.

(** C5 as it is written does not hold: two calls of [sendMessage] can
    generate the same id, and both lines stay in the chat log. *)
Lemma sendMessage_can_repeat_an_id :
  exists st out,
    run shortRandomEvents seedPeer = Some (st, out) /\
    map ChatLine.id (conversation st) = ["-"; "-"] /\
    ~ NoDup (map ChatLine.id (conversation st)).
Proof.
  eexists _, _. split; [vm_compute; reflexivity|]. simpl.
  split; [reflexivity|]. intros H. inversion H as [|? ? Hin _]. apply Hin.
  left. reflexivity.
Qed.

Lemma sendMessage_loading_throws_witness :
  isLoading alicePeer = true /\
  sendMessage "0.4fzyo82mvyr" "0.9ix3k1c0qzb" "hello" alicePeer
  = Throws (Error "not ready yet") alicePeer [].
Proof.
  split; [reflexivity|].
  apply (proj1 (sendMessage_loading_throws
                  "0.4fzyo82mvyr" "0.9ix3k1c0qzb" "hello" alicePeer)).
  reflexivity.
Defined.

Lemma sendMessage_appends_and_fans_out_witness :
  exists st',
    sendMessage "0.4fzyo82mvyr" "0.9ix3k1c0qzb" "hello" seedWithA =
      Returns tt st'
        [ConnSend connA
           (ChatMessage [ChatLine.mk "82mvyr-1c0qzb" "seed" "hello"])] /\
    length (conversation st') = 1.
Proof.
  destruct (sendMessage_appends_and_fans_out
              "0.4fzyo82mvyr" "0.9ix3k1c0qzb" "hello" seedWithA eq_refl)
    as [st' [E [_ [L _]]]].
  exists st'. split; [exact E | exact L].
Defined.

Lemma no_self_connection_witness :
  exists st out,
    run aliceEvents alicePeer = Some (st, out) /\
    peerId st = peerId alicePeer /\
    ~ In (peerId st) (JsMap.keys (connections st)).
Proof.
  apply (@no_self_connection sampleKebab (Some "alice") aliceEvents).
  all_from_remote.
Defined.

Lemma connect_to_known_identity_is_noop_witness :
  JsMap.has "407d10227d90-a" (connections seedWithA) = true /\
  connectToPeer "407d10227d90-a" seedWithA = Returns tt seedWithA [].
Proof.
  split; [reflexivity|].
  apply (proj1 (connect_to_known_identity_is_noop
                  "407d10227d90-a" seedWithA eq_refl)).
Defined.


Lemma onOpen_seeds_name_the_recipient_witness :
  keyedByPeer seedWithA /\
  exists st' out,
    onOpen connB seedWithA = Returns tt st' out /\
    forall c ids, In (ConnSend c (SeedsMessage ids)) out ->
                  In (DataConnection.peer c) ids.
Proof.
  assert (HK : keyedByPeer seedWithA) by (repeat constructor).
  split; [exact HK|].
  destruct (onOpen_seeds_name_the_recipient connB seedWithA)
    as [st' [out [E [_ [_ [_ [_ H]]]]]]].
  exists st', out. split; [exact E | exact (H HK)].
Defined.

Lemma chat_log_ids_distinct_witness :
  (exists st' out,
     sendMessage "0.4fzyo82mvyr" "0.9ix3k1c0qzb" "hello" seedWithA
     = Returns tt st' out /\
     NoDup (map ChatLine.id (conversation st'))) /\
  (exists st' out,
     onData connA
            (ChatMessage [ChatLine.mk "-" "seed" "hi"; ChatLine.mk "-" "bob" "again"])
            (stateAfter shortRandomEvents seedPeer)
     = Returns tt st' out /\
     NoDup (map ChatLine.id (conversation st')) /\
     distinctIds (conversation st') = 1).
Proof.
  split.
  - apply (proj2 (chat_log_ids_distinct connA [] "0.4fzyo82mvyr" "0.9ix3k1c0qzb"
                    "hello" seedWithA)).
    + reflexivity.
    + constructor.
    + simpl. tauto.
  - destruct (proj1 (chat_log_ids_distinct connA
                       [ChatLine.mk "-" "seed" "hi"; ChatLine.mk "-" "bob" "again"]
                       "" "" "" (stateAfter shortRandomEvents seedPeer)))
      as [st' [out [E [Hnd Hcount]]]].
    exists st', out. split; [exact E|]. split; [exact Hnd|].
    rewrite Hcount; [reflexivity|].
    intros l [<-|[<-|[]]]; simpl; auto.
Defined.

(** * Further properties *)

(** ** Dialing a list of identities *)

Lemma forEach_connect_online depth peerIds st :
  disconnected st = false ->
  forEach peerIds (connectToPeerWith (handleNewConnection (S depth))) st =
  Returns tt (dialAll (dialTargets st peerIds) st)
             (dialAllOutput (dialTargets st peerIds) st).
Proof.
  revert st. induction peerIds as [|pid l IH]; intros st Hd; [reflexivity|].
  cbn [forEach]. unfold bind. rewrite connectToPeerWith_spec, Hd.
  unfold dialTargets. cbn [filter]. fold (dialTargets st l).
  fold (dialGuard st pid). destruct (dialGuard st pid); cbn [negb].
  - rewrite (IH st Hd). reflexivity.
  - rewrite (IH (afterDial pid st) Hd). reflexivity.
Qed.

Lemma forEach_connect_offline depth peerIds st :
  disconnected st = true ->
  forEach peerIds (connectToPeerWith (handleNewConnection (S depth))) st =
  match dialTargets st peerIds with
  | [] => Returns tt st []
  | pid :: _ => Throws TypeError (failedDial st) (failedDialOutput pid st)
  end.
Proof.
  intros Hd. induction peerIds as [|pid l IH]; [reflexivity|].
  cbn [forEach]. unfold bind. rewrite connectToPeerWith_spec, Hd.
  unfold dialTargets. cbn [filter]. fold (dialTargets st l).
  fold (dialGuard st pid). destruct (dialGuard st pid); cbn [negb].
  - rewrite IH. destruct (dialTargets st l); reflexivity.
  - reflexivity.
Qed.

Lemma forEach_connect_spec depth peerIds st :
  forEach peerIds (connectToPeerWith (handleNewConnection (S depth))) st =
  dialOutcome st peerIds.
Proof.
  unfold dialOutcome. destruct (disconnected st) eqn:Hd.
  - apply forEach_connect_offline, Hd.
  - apply forEach_connect_online, Hd.
Qed.

Lemma dialOutcome_online st peerIds :
  disconnected st = false \/ dialTargets st peerIds = [] ->
  dialOutcome st peerIds =
  Returns tt (dialAll (dialTargets st peerIds) st)
             (dialAllOutput (dialTargets st peerIds) st).
Proof.
  unfold dialOutcome. intros [Hd|Ht].
  - rewrite Hd. reflexivity.
  - rewrite Ht. destruct (disconnected st); reflexivity.
Qed.

Lemma dialOutcome_offline st peerIds pid rest :
  disconnected st = true -> dialTargets st peerIds = pid :: rest ->
  dialOutcome st peerIds =
  Throws TypeError (failedDial st) (failedDialOutput pid st).
Proof. unfold dialOutcome. intros -> ->. reflexivity. Qed.

Lemma dialAll_frame targets st :
  peerId (dialAll targets st) = peerId st /\
  username (dialAll targets st) = username st /\
  connections (dialAll targets st) = connections st /\
  conversation (dialAll targets st) = conversation st /\
  isLoading (dialAll targets st) = isLoading st /\
  lastError (dialAll targets st) = lastError st /\
  dialed (dialAll targets st) = dialed st + length targets.
Proof.
  revert st. induction targets as [|pid l IH]; intros st; simpl.
  - repeat split. lia.
  - destruct (IH (afterDial pid st)) as [H1 [H2 [H3 [H4 [H5 [H6 H7]]]]]].
    repeat split; try assumption. rewrite H7. simpl. lia.
Qed.

Lemma connectTargets_app a b :
  connectTargets (a ++ b) = (connectTargets a ++ connectTargets b)%list.
Proof. apply flat_map_app. Qed.

Lemma connectTargets_dialAllOutput targets st :
  connectTargets (dialAllOutput targets st) = targets.
Proof.
  induction targets as [|pid l IH]; simpl; [reflexivity|]. f_equal. exact IH.
Qed.

Lemma handleNewConnection_spec conn st :
  handleNewConnection callDepth conn st =
  if JsMap.has (DataConnection.peer conn) (connections st) then Returns tt st []
  else
    match DataConnection.metadata conn with
    | None => Throws TypeError st []
    | Some md =>
        match dialOutcome st (match Metadata.peerIds md with
                              | Some l => l
                              | None => []
                              end) with
        | Returns _ s out =>
            Returns tt (set_listening (listening s ++ [conn]) s) out
        | Throws e s out => Throws e s out
        | Exhausted => Exhausted
        end
    end.
Proof.
  unfold callDepth. rewrite handleNewConnection_S.
  unfold bind at 1. unfold this. cbv beta iota.
  destruct (JsMap.has (DataConnection.peer conn) (connections st)); [reflexivity|].
  unfold bind at 1.
  destruct (DataConnection.metadata conn) as [md|]; [|reflexivity].
  unfold ret at 1. cbv beta iota. unfold bind at 1.
  rewrite forEach_connect_spec.
  destruct (dialOutcome st match Metadata.peerIds md with
                           | Some l => l
                           | None => []
                           end) as [[] s out|e s out|]; [|reflexivity|reflexivity].
  unfold attachListeners, assign. simpl. rewrite app_nil_r. reflexivity.
Qed.

Lemma dialAll_listening_length targets st :
  length (listening (dialAll targets st)) = length (listening st) + length targets.
Proof.
  revert st. induction targets as [|pid l IH]; intros st; simpl; [lia|].
  rewrite IH. simpl. rewrite length_app. simpl. lia.
Qed.

Lemma dialAll_listening_incl targets st c :
  In c (listening st) -> In c (listening (dialAll targets st)).
Proof.
  revert st. induction targets as [|pid l IH]; intros st H; simpl; [exact H|].
  apply IH. simpl. apply in_or_app. left. exact H.
Qed.

Lemma in_dialAllOutput e targets st :
  In e (dialAllOutput targets st) ->
  exists pid, In pid targets /\
    (e = ConsoleDebug ("[" ++ peerId st ++ "] connecting to " ++ pid) \/
     e = Connect pid (dialOpts st)).
Proof.
  unfold dialAllOutput. rewrite in_flat_map. intros [pid [Hp He]].
  exists pid. split; [exact Hp|]. unfold dialOutput in He.
  destruct He as [<-|[<-|[]]]; auto.
Qed.

Lemma onData_seeds_spec conn peerIds st :
  onData conn (SeedsMessage peerIds) st =
  let line := ConsoleDebug ("[" ++ peerId st ++ "] peer "
                            ++ DataConnection.peer conn
                            ++ " sent a message type=seeds") in
  match dialOutcome st peerIds with
  | Returns _ s out => Returns tt s (line :: out ++ [Emit "update"])
  | Throws e s out => Throws e s (line :: out)
  | Exhausted => Exhausted
  end.
Proof.
  unfold onData.
  change (forEach peerIds connectToPeer)
    with (forEach peerIds (connectToPeerWith (handleNewConnection 1))).
  unfold bind at 1. unfold this at 1.
  unfold bind at 1. unfold perform at 1.
  unfold bind at 1. rewrite forEach_connect_spec.
  destruct (dialOutcome st peerIds) as [[] s out|e s out|]; reflexivity.
Qed.

Lemma onPeerConnection_spec conn st :
  onPeerConnection conn st =
  let line := ConsoleDebug ("[" ++ peerId st ++ "] peer "
                            ++ DataConnection.peer conn ++ " reached us") in
  if JsMap.has (DataConnection.peer conn) (connections st)
  then Returns tt st [line]
  else
    match DataConnection.metadata conn with
    | None => Throws TypeError st [line]
    | Some md =>
        match dialOutcome st (match Metadata.peerIds md with
                              | Some l => l
                              | None => []
                              end) with
        | Returns _ s out =>
            Returns tt (set_listening (listening s ++ [conn]) s) (line :: out)
        | Throws e s out => Throws e s (line :: out)
        | Exhausted => Exhausted
        end
    end.
Proof.
  unfold onPeerConnection.
  unfold bind at 1. unfold this at 1.
  unfold bind at 1. unfold perform at 1.
  rewrite handleNewConnection_spec.
  destruct (JsMap.has (DataConnection.peer conn) (connections st)); [reflexivity|].
  destruct (DataConnection.metadata conn) as [md|]; [|reflexivity].
  destruct (dialOutcome st match Metadata.peerIds md with
                           | Some l => l
                           | None => []
                           end) as [[] s out|e s out|]; reflexivity.
Qed.

Lemma onPeerOpen_spec st :
  onPeerOpen st =
  let s := set_lastError None (set_isLoading false st) in
  if dialGuard s PeerIDSeed
  then Returns tt s [ConsoleDebug ("[" ++ peerId st ++ "] connected"); Emit "update"]
  else if disconnected st
  then Throws TypeError (failedDial s)
         (ConsoleDebug ("[" ++ peerId st ++ "] connected") :: Emit "update"
          :: failedDialOutput PeerIDSeed s)
  else Returns tt (afterDial PeerIDSeed s)
         (ConsoleDebug ("[" ++ peerId st ++ "] connected") :: Emit "update"
          :: dialOutput PeerIDSeed s).
Proof.
  unfold onPeerOpen.
  unfold bind at 1. unfold assign at 1.
  unfold bind at 1. unfold assign at 1.
  unfold bind at 1. unfold this at 1.
  unfold bind at 1. unfold perform at 1.
  unfold bind at 1. unfold perform at 1.
  rewrite connectToPeer_spec. cbv zeta. unfold dialGuard.
  destruct (JsMap.has PeerIDSeed
              (connections (set_lastError None (set_isLoading false st)))
            || String.eqb PeerIDSeed
                 (peerId (set_lastError None (set_isLoading false st))));
    [reflexivity|].
  change (disconnected (set_lastError None (set_isLoading false st)))
    with (disconnected st).
  destruct (disconnected st); reflexivity.
Qed.

Lemma onPeerError_spec error st :
  onPeerError error st =
  Returns tt
    (set_lastError
       (Some (if String.eqb (PeerError.type error) "peer-unavailable" then
                ErrorText "peer is unreachable"
              else if String.eqb (PeerError.type error) "unavailable-id" then
                ErrorText (peerId st ++ " is already taken")
              else ErrorRaw error))
       (set_isLoading false st))
    [ConsoleError error; Emit "update"].
Proof.
  unfold onPeerError. run_body.
  destruct (String.eqb (PeerError.type error) "peer-unavailable"); [reflexivity|].
  destruct (String.eqb (PeerError.type error) "unavailable-id"); reflexivity.
Qed.

(** ** Seeds messages and accepted connections *)

(** X1: on a seeds message, on a peer that is connected to the server (or
    when no listed identity is to be dialed), the listener asks the
    transport for a connection to each listed identity that is neither in
    the connection map nor the local identity, in the order listed and once
    per occurrence; it sends nothing, emits [update], and leaves the
    connection map and the chat log as they were.  On a peer that has lost
    the server the first such identity fails: PeerJS reports its
    [disconnected] error to the error listener, which stores it, ends the
    loading state and emits [update]; then the listener throws a TypeError,
    no connection is asked for, no listener is attached, and the [update] of
    the data listener itself is not emitted. *)
Theorem onData_seeds_dials_unknown conn peerIds st :
  let targets :=
    filter (fun pid => negb (JsMap.has pid (connections st)
                             || String.eqb pid (peerId st))) peerIds in
  (disconnected st = false \/ targets = [] ->
   exists st' out,
     onData conn (SeedsMessage peerIds) st = Returns tt st' out /\
     connectTargets out = targets /\
     (forall c m, ~ In (ConnSend c m) out) /\
     In (Emit "update") out /\
     connections st' = connections st /\
     conversation st' = conversation st /\
     dialed st' = dialed st + length targets) /\
  (disconnected st = true ->
   forall pid rest, targets = pid :: rest ->
   exists st',
     onData conn (SeedsMessage peerIds) st =
       Throws TypeError st'
         [ConsoleDebug ("[" ++ peerId st ++ "] peer " ++ DataConnection.peer conn
                        ++ " sent a message type=seeds");
          ConsoleDebug ("[" ++ peerId st ++ "] connecting to " ++ pid);
          ConsoleError disconnectedError;
          Emit "update"] /\
     lastError st' = Some (ErrorRaw disconnectedError) /\
     isLoading st' = false /\
     connections st' = connections st /\
     conversation st' = conversation st /\
     listening st' = listening st /\
     dialed st' = dialed st).
Proof.
  intros targets. fold (dialTargets st peerIds) in targets. split.
  - intros Hon. eexists _, _.
    split; [rewrite onData_seeds_spec, (dialOutcome_online _ _ Hon); reflexivity|].
    destruct (dialAll_frame targets st) as [_ [_ [Hc [Hl [_ [_ Hd]]]]]].
    split; [|split; [|split; [|split; [exact Hc|split; [exact Hl|exact Hd]]]]].
    + cbn [connectTargets flat_map app]. fold (connectTargets
        (dialAllOutput (dialTargets st peerIds) st ++ [Emit "update"])).
      rewrite connectTargets_app, connectTargets_dialAllOutput.
      simpl. apply app_nil_r.
    + intros c m [H|H]; [discriminate|]. apply in_app_or in H.
      destruct H as [H|[H|[]]]; [|discriminate].
      apply in_dialAllOutput in H. destruct H as [pid [_ [H|H]]]; discriminate.
    + right. apply in_or_app. right. left. reflexivity.
  - intros Hoff pid rest Ht. exists (failedDial st).
    split; [|repeat split].
    rewrite onData_seeds_spec, (dialOutcome_offline _ _ Hoff Ht). reflexivity.
Qed.

(** X2: a connection the transport accepts, from an identity that is not in
    the connection map, on a peer that is connected to the server (or when
    nothing is to be dialed), gets the listeners attached; before that a
    connection is asked for to each identity of its metadata list that is
    neither in the map nor the local identity (to none when the metadata has
    no list), once per occurrence. The connection map is unchanged: the
    connection is not in it until it opens.  On a peer that has lost the
    server the first identity to dial fails as in X1, and the accepted
    connection gets no listener. *)
Theorem onPeerConnection_dials_listed conn md st :
  JsMap.has (DataConnection.peer conn) (connections st) = false ->
  DataConnection.metadata conn = Some md ->
  let listed := match Metadata.peerIds md with
                | Some l => l
                | None => []
                end in
  let targets :=
    filter (fun pid => negb (JsMap.has pid (connections st)
                             || String.eqb pid (peerId st))) listed in
  (disconnected st = false \/ targets = [] ->
   exists st' out,
     onPeerConnection conn st = Returns tt st' out /\
     connectTargets out = targets /\
     connections st' = connections st /\
     conversation st' = conversation st /\
     In conn (listening st') /\
     length (listening st') = length (listening st) + length targets + 1) /\
  (disconnected st = true ->
   forall pid rest, targets = pid :: rest ->
   exists st',
     onPeerConnection conn st =
       Throws TypeError st'
         [ConsoleDebug ("[" ++ peerId st ++ "] peer " ++ DataConnection.peer conn
                        ++ " reached us");
          ConsoleDebug ("[" ++ peerId st ++ "] connecting to " ++ pid);
          ConsoleError disconnectedError;
          Emit "update"] /\
     lastError st' = Some (ErrorRaw disconnectedError) /\
     connections st' = connections st /\
     listening st' = listening st).
Proof.
  intros Hhas Hmd listed targets. fold (dialTargets st listed) in targets. split.
  - intros Hon. eexists _, _.
    split; [rewrite onPeerConnection_spec, Hhas, Hmd;
            fold listed; rewrite (dialOutcome_online _ _ Hon); reflexivity|].
    destruct (dialAll_frame targets st) as [_ [_ [Hc [Hl _]]]].
    split; [|split; [exact Hc|split; [exact Hl|split]]].
    + cbn [connectTargets flat_map app].
      apply connectTargets_dialAllOutput.
    + simpl. apply in_or_app. right. left. reflexivity.
    + cbn [listening set_listening]. rewrite length_app, dialAll_listening_length.
      cbn [length]. reflexivity.
  - intros Hoff pid rest Ht. exists (failedDial st).
    split; [|repeat split].
    rewrite onPeerConnection_spec, Hhas, Hmd. fold listed.
    rewrite (dialOutcome_offline _ _ Hoff Ht). reflexivity.
Qed.

(** X3: a connection the transport accepts without metadata, from an
    identity that is not in the connection map, makes the listener throw a
    TypeError when it reads the list: the object is unchanged, no listener
    is attached, and so the later events of that connection do nothing. *)
Theorem onPeerConnection_without_metadata_throws conn st :
  JsMap.has (DataConnection.peer conn) (connections st) = false ->
  DataConnection.metadata conn = None ->
  onPeerConnection conn st =
    Throws TypeError st
      [ConsoleDebug ("[" ++ peerId st ++ "] peer " ++ DataConnection.peer conn
                     ++ " reached us")] /\
  (~ In conn (listening st) ->
   step (OpenEvent conn) st = Returns tt st [] /\
   forall data, step (DataEvent conn data) st = Returns tt st []).
Proof.
  intros Hhas Hmd. split.
  - rewrite onPeerConnection_spec, Hhas, Hmd. reflexivity.
  - intros Hl. split; [|intros data]; simpl; apply fire_unattached, Hl.
Qed.

(** ** Identity and bootstrap *)

Lemma append_inj_l (a x y : string) : a ++ x = a ++ y -> x = y.
Proof.
  induction a as [|c a IH]; simpl; intros H; [exact H|].
  inversion H. auto.
Qed.

Lemma append_eq_self (a s : string) : a ++ s = a -> s = "".
Proof.
  induction a as [|c a IH]; simpl; intros H; [exact H|].
  inversion H. auto.
Qed.

Lemma named_identity_not_seed (slug : string) :
  String.eqb PeerIDSeed (PeerIDSeed ++ "-" ++ slug) = false.
Proof.
  apply String.eqb_neq. intros H. symmetry in H.
  apply append_eq_self in H. discriminate H.
Qed.

Lemma constructor_peerId kebabCase name :
  peerId (fst (constructor kebabCase name)) =
  match name with
  | Some u => if String.eqb u "" then PeerIDSeed
              else PeerIDSeed ++ "-" ++ kebabCase u
  | None => PeerIDSeed
  end.
Proof. reflexivity. Qed.

(** X4: the identity of a new peer is the seed identity exactly when no
    name or the empty name was given; otherwise it is the seed identity, a
    hyphen and the slug of the name, so two non-empty names give the same
    identity exactly when their slugs are equal.  The new peer is loading,
    has no error, no connection and an empty chat log, and the transport was
    asked to register that identity. *)
Theorem identity_of_name (kebabCase : string -> string) name :
  let st0 := fst (constructor kebabCase name) in
  (peerId st0 = PeerIDSeed <-> name = None \/ name = Some "") /\
  (forall u, name = Some u -> u <> "" ->
     peerId st0 = PeerIDSeed ++ "-" ++ kebabCase u /\
     forall v, v <> "" ->
       (peerId (fst (constructor kebabCase (Some v))) = peerId st0
        <-> kebabCase v = kebabCase u)) /\
  snd (constructor kebabCase name) = [NewPeer (peerId st0)] /\
  isLoading st0 = true /\ lastError st0 = None /\
  connections st0 = [] /\ conversation st0 = [] /\ username st0 = name.
Proof.
  intros st0. split; [|split; [|repeat split]].
  - unfold st0. rewrite constructor_peerId. destruct name as [u|].
    + destruct (String.eqb_spec u "") as [->|Hne].
      * split; auto.
      * split.
        -- intros H. apply append_eq_self in H. discriminate H.
        -- intros [H|H]; [discriminate|]. inversion H. contradiction.
    + split; auto.
  - intros u -> Hu. unfold st0. rewrite constructor_peerId.
    apply String.eqb_neq in Hu. rewrite Hu. split; [reflexivity|].
    intros v Hv. rewrite constructor_peerId.
    apply String.eqb_neq in Hv. rewrite Hv. split.
    + intros H. apply append_inj_l in H. inversion H. reflexivity.
    + intros ->. reflexivity.
Qed.

(** X5: when the transport reports a new peer open, the peer stops
    loading, has no error, emits [update], and asks for a connection to the
    seed identity exactly when it was given a non-empty name, that is, when
    it is not the seed itself; the request carries an empty list of known
    identities, and the connection map is still empty. *)
Theorem fresh_peer_bootstrap (kebabCase : string -> string) name :
  let st0 := fst (constructor kebabCase name) in
  exists st1 out,
    onPeerOpen st0 = Returns tt st1 out /\
    isLoading st1 = false /\
    lastError st1 = None /\
    In (Emit "update") out /\
    connections st1 = [] /\
    connectTargets out = match name with
                         | Some u => if String.eqb u "" then [] else [PeerIDSeed]
                         | None => []
                         end /\
    (forall pid opts, In (Connect pid opts) out ->
       opts = {| opt_metadata := Metadata.mk (Some []); serialization := "json" |}).
Proof.
  intros st0.
  assert (Hseed : forall st, peerId st = PeerIDSeed -> connections st = [] ->
            exists st1 out,
              onPeerOpen st = Returns tt st1 out /\
              isLoading st1 = false /\ lastError st1 = None /\
              In (Emit "update") out /\ connections st1 = [] /\
              connectTargets out = [] /\
              (forall pid opts, In (Connect pid opts) out ->
                 opts = {| opt_metadata := Metadata.mk (Some []);
                           serialization := "json" |})).
  { intros st Hid Hc. rewrite onPeerOpen_spec. cbv zeta. unfold dialGuard.
    cbn [peerId connections set_lastError set_isLoading].
    rewrite Hid, Hc, String.eqb_refl. cbn [JsMap.has orb].
    eexists _, _. split; [reflexivity|]. cbn [isLoading lastError connections
      set_lastError set_isLoading]. repeat split; auto.
    - right. left. reflexivity.
    - intros pid opts [H|[H|[]]]; discriminate. }
  destruct name as [u|]; [|apply Hseed; reflexivity].
  destruct (String.eqb u "") eqn:Eu.
  - apply Hseed; [|reflexivity]. unfold st0. rewrite constructor_peerId, Eu.
    reflexivity.
  - rewrite onPeerOpen_spec. cbv zeta. unfold dialGuard.
    cbn [peerId connections set_lastError set_isLoading].
    unfold st0 at 1 2. rewrite constructor_peerId, Eu.
    rewrite named_identity_not_seed.
    change (connections (fst (constructor kebabCase (Some u)))) with
      (@nil (string * DataConnection.t)).
    cbn [JsMap.has orb].
    eexists _, _. split; [reflexivity|]. repeat split.
    + right. left. reflexivity.
    + intros pid opts [H|[H|[H|[H|[]]]]]; try discriminate.
      inversion H. reflexivity.
Qed.

(** ** Closing connections *)

Lemma jsmap_delete_absent (V : Type) k (m : JsMap.t V) :
  JsMap.has k m = false -> JsMap.delete k m = m.
Proof.
  unfold JsMap.delete. induction m as [|[k' v'] m IH]; simpl; [reflexivity|].
  destruct (String.eqb k k'); [discriminate|]. intros H. simpl.
  rewrite (IH H). reflexivity.
Qed.

Lemma jsmap_delete_set_absent (V : Type) k (v : V) (m : JsMap.t V) :
  JsMap.has k m = false -> JsMap.delete k (JsMap.set k v m) = m.
Proof.
  unfold JsMap.delete. induction m as [|[k' v'] m IH]; simpl.
  - rewrite String.eqb_refl. reflexivity.
  - destruct (String.eqb k k') eqn:E; [discriminate|]. intros H. simpl.
    rewrite E. simpl. rewrite (IH H). reflexivity.
Qed.

Lemma jsmap_keys_delete (V : Type) k (m : JsMap.t V) :
  JsMap.keys (JsMap.delete k m) =
  filter (fun k' => negb (String.eqb k k')) (JsMap.keys m).
Proof.
  unfold JsMap.delete, JsMap.keys.
  induction m as [|[k' v'] m IH]; simpl; [reflexivity|].
  destruct (String.eqb k k'); simpl; rewrite IH; reflexivity.
Qed.

Lemma set_connections_same st : set_connections (connections st) st = st.
Proof. destruct st. reflexivity. Qed.

(** X6: the [close] and the [error] listener of a connection do the same:
    they remove the entry of the connection's remote identity from the
    connection map and nothing else - the other entries stay, in their
    order - and they emit, send and ask for nothing, so no reconnection is
    tried; where the map has no entry for that identity the object is left
    exactly as it was. *)
Theorem onClose_removes_only_that_entry conn st :
  exists st',
    onClose conn st = Returns tt st' [] /\
    onConnError conn st = Returns tt st' [] /\
    JsMap.has (DataConnection.peer conn) (connections st') = false /\
    JsMap.keys (connections st') =
      filter (fun k => negb (String.eqb (DataConnection.peer conn) k))
             (JsMap.keys (connections st)) /\
    (forall k, k <> DataConnection.peer conn ->
       JsMap.has k (connections st') = JsMap.has k (connections st)) /\
    conversation st' = conversation st /\
    listening st' = listening st /\
    (JsMap.has (DataConnection.peer conn) (connections st) = false -> st' = st).
Proof.
  eexists. split; [reflexivity|]. split; [reflexivity|]. simpl.
  split; [|split; [|split; [|split; [|split]]]].
  - rewrite JsMapFacts.has_delete, String.eqb_refl. reflexivity.
  - apply jsmap_keys_delete.
  - intros k Hk. rewrite JsMapFacts.has_delete.
    apply String.eqb_neq in Hk. rewrite Hk. reflexivity.
  - reflexivity.
  - reflexivity.
  - intros H. rewrite (jsmap_delete_absent _ _ H). apply set_connections_same.
Qed.

(** X7: a connection to an identity that is not in the connection map,
    which opens and then closes, leaves the object exactly as it was before
    it opened. *)
Theorem open_then_close_restores conn st :
  JsMap.has (DataConnection.peer conn) (connections st) = false ->
  exists st1 out1,
    onOpen conn st = Returns tt st1 out1 /\
    JsMap.has (DataConnection.peer conn) (connections st1) = true /\
    onClose conn st1 = Returns tt st [].
Proof.
  intros H. eexists _, _. split; [apply onOpen_spec|]. split.
  - simpl. rewrite JsMapFacts.has_set, String.eqb_refl. reflexivity.
  - unfold onClose, assign. destruct st. simpl in *.
    rewrite (jsmap_delete_set_absent _ _ _ H). reflexivity.
Qed.

(** X8: the entry is removed by identity, not by connection object: when
    two connection objects lead to the same identity and one of them is
    open, in the map, the closing of the other one removes the entry of the
    open one. *)
Theorem stale_close_drops_open_connection stale conn st :
  DataConnection.peer stale = DataConnection.peer conn ->
  exists st1 out1 st2,
    onOpen conn st = Returns tt st1 out1 /\
    In conn (JsMap.values (connections st1)) /\
    onClose stale st1 = Returns tt st2 [] /\
    JsMap.has (DataConnection.peer conn) (connections st2) = false /\
    ~ In (DataConnection.peer conn) (JsMap.keys (connections st2)).
Proof.
  intros E. eexists _, _, _. split; [apply onOpen_spec|]. split.
  - apply JsMapFacts.in_values_set.
  - split; [reflexivity|].
    assert (H : JsMap.has (DataConnection.peer conn)
                  (JsMap.delete (DataConnection.peer stale)
                     (JsMap.set (DataConnection.peer conn) conn (connections st)))
                = false).
    { rewrite JsMapFacts.has_delete, E, String.eqb_refl. reflexivity. }
    split; [exact H|]. apply JsMapFacts.has_false_iff. exact H.
Qed.

(** ** Merging chat messages *)

Section UniqByMore.
Variable A : Type.
Variable f : A -> string.

Lemma filter_all l : filter (fun _ : A => true) l = l.
Proof. induction l as [|x l IH]; simpl; congruence. Qed.

Lemma filter_none (p : A -> bool) l :
  (forall x, In x l -> p x = false) -> filter p l = [].
Proof.
  induction l as [|x l IH]; simpl; intros H; [reflexivity|].
  rewrite (H x (or_introl eq_refl)). apply IH. intros y Hy. apply H. auto.
Qed.

Lemma includes_true_iff seen k : includes seen k = true <-> In k seen.
Proof.
  unfold includes. rewrite existsb_exists. split.
  - intros [x [Hx E]]. apply String.eqb_eq in E. subst. exact Hx.
  - intros H. exists k. split; [exact H | apply String.eqb_refl].
Qed.

Lemma firstOccurrences_app a b :
  firstOccurrences f (a ++ b) =
  (firstOccurrences f a ++
   filter (fun x => negb (includes (map f a) (f x))) (firstOccurrences f b))%list.
Proof.
  induction a as [|x a IH]; simpl.
  - symmetry. apply filter_all.
  - f_equal. rewrite IH, filter_app. f_equal.
    rewrite filter_filter. apply filter_ext. intros y.
    unfold includes. simpl. rewrite negb_orb. apply andb_comm.
Qed.

Lemma firstOccurrences_app_distinct a b :
  NoDup (map f a) ->
  firstOccurrences f (a ++ b) =
  (a ++ filter (fun x => negb (includes (map f a) (f x))) (firstOccurrences f b))%list.
Proof.
  intros H. rewrite firstOccurrences_app, (firstOccurrences_id f a H). reflexivity.
Qed.

Lemma firstOccurrences_again a b :
  firstOccurrences f (firstOccurrences f (a ++ b) ++ b) =
  firstOccurrences f (a ++ b).
Proof.
  rewrite firstOccurrences_app_distinct by apply firstOccurrences_NoDup.
  rewrite filter_none; [apply app_nil_r|].
  intros y Hy. apply negb_false_iff, includes_true_iff.
  apply firstOccurrences_keys. rewrite map_app. apply in_or_app. right.
  apply in_map, firstOccurrences_incl with (f := f), Hy.
Qed.
End UniqByMore.

(** X9: a chat message that arrives a second time, over whichever
    connection, changes nothing: after the first merge the object is as the
    second merge leaves it. *)
Theorem merge_twice_is_merge_once conn conn' lines st :
  exists st1 out1 out2,
    onData conn (ChatMessage lines) st = Returns tt st1 out1 /\
    onData conn' (ChatMessage lines) st1 = Returns tt st1 out2.
Proof.
  eexists _, _, _. split; [apply onData_chat_spec|].
  rewrite onData_chat_spec. simpl. rewrite firstOccurrences_again. reflexivity.
Qed.

(** X10: on a chat log whose ids are distinct, a merge only appends: the
    lines of the log stay where they are, and behind them come the received
    lines whose ids the log did not have, one per id; a received line whose
    id the log already had is dropped, whatever its content. *)
Theorem merge_appends_unknown_ids conn lines st :
  NoDup (chatIds st) ->
  exists st' out added,
    onData conn (ChatMessage lines) st = Returns tt st' out /\
    conversation st' = (conversation st ++ added)%list /\
    NoDup (map ChatLine.id added) /\
    (forall l, In l added -> In l lines) /\
    (forall k, In k (map ChatLine.id added) <->
               In k (map ChatLine.id lines) /\ ~ In k (chatIds st)).
Proof.
  intros Hnd. eexists _, _, _. split; [apply onData_chat_spec|]. simpl.
  split; [apply firstOccurrences_app_distinct, Hnd|].
  split; [apply NoDup_map_filter, firstOccurrences_NoDup|]. split.
  - intros l Hl. apply filter_In in Hl.
    apply firstOccurrences_incl with (f := ChatLine.id). tauto.
  - intros k. rewrite in_map_iff. split.
    + intros [l [<- Hl]]. apply filter_In in Hl. destruct Hl as [Hl Hk]. split.
      * apply in_map, firstOccurrences_incl with (f := ChatLine.id), Hl.
      * apply negb_true_iff in Hk. intros Hin.
        apply includes_true_iff in Hin. unfold chatIds in Hin. congruence.
    + intros [Hk Hnew]. apply firstOccurrences_keys in Hk.
      apply in_map_iff in Hk. destruct Hk as [l [<- Hl]].
      exists l. split; [reflexivity|]. apply filter_In. split; [exact Hl|].
      apply negb_true_iff. destruct (includes (map ChatLine.id (conversation st))
                                       (ChatLine.id l)) eqn:E; [|reflexivity].
      apply includes_true_iff in E. contradiction.
Qed.

(** X11: replication of a line. What [sendMessage] puts on each connection
    is a chat message with the new line alone; a peer whose data listener
    receives that message has a line with that id in its chat log
    afterwards, and when it did not have the id before, it has the very
    line, with the same id, sender and content, at the end of its log. *)
Theorem sent_line_reaches_receiver rand1 rand2 msg sender conn receiver :
  isLoading sender = false ->
  exists line sender' out receiver' out',
    sendMessage rand1 rand2 msg sender = Returns tt sender' out /\
    ChatLine.id line = randomId rand1 rand2 /\
    ChatLine.content line = msg /\
    (forall c m, In (ConnSend c m) out -> m = ChatMessage [line]) /\
    (forall c, In c (JsMap.values (connections sender)) ->
               In (ConnSend c (ChatMessage [line])) out) /\
    onData conn (ChatMessage [line]) receiver = Returns tt receiver' out' /\
    In (ChatLine.id line) (chatIds receiver') /\
    In (Emit "update") out' /\
    (~ In (ChatLine.id line) (chatIds receiver) ->
     exists before, conversation receiver' = (before ++ [line])%list).
Proof.
  intros Hl.
  exists {| ChatLine.id := randomId rand1 rand2;
            ChatLine.sender := match username sender with
                               | Some u => u
                               | None => "seed"
                               end;
            ChatLine.content := msg |}.
  eexists _, _, _, _. split; [rewrite sendMessage_spec, Hl; reflexivity|].
  split; [reflexivity|]. split; [reflexivity|]. split; [|split].
  - intros c m H. apply in_sendOutput in H. tauto.
  - intros c H. apply in_sendOutput. auto.
  - split; [apply onData_chat_spec|]. split; [|split].
    + unfold chatIds. simpl conversation. apply firstOccurrences_keys.
      rewrite map_app. apply in_or_app. right. left. reflexivity.
    + right. left. reflexivity.
    + intros Hnew. simpl conversation. rewrite firstOccurrences_app.
      eexists. f_equal. simpl.
      destruct (includes (map ChatLine.id (conversation receiver))
                  (randomId rand1 rand2)) eqn:E; [|reflexivity].
      apply includes_true_iff in E. contradiction.
Qed.

(** X12: seeding of the history. The chat message that the [open] listener
    sends on the new connection holds the whole chat log of the sender; a
    peer with an empty chat log that receives it has afterwards the lines of
    that log, first occurrence of each id, in the same order - the very log
    when its ids are distinct. *)
Theorem history_seeds_empty_peer conn conn' sender receiver :
  conversation receiver = [] ->
  exists sender' out receiver' out',
    onOpen conn sender = Returns tt sender' out /\
    In (ConnSend conn (ChatMessage (conversation sender))) out /\
    onData conn' (ChatMessage (conversation sender)) receiver
      = Returns tt receiver' out' /\
    conversation receiver' = firstOccurrences ChatLine.id (conversation sender) /\
    (NoDup (chatIds sender) -> conversation receiver' = conversation sender).
Proof.
  intros He. eexists _, _, _, _. split; [apply onOpen_spec|]. split.
  - apply in_or_app. right. apply in_or_app. left. apply in_sendOutput.
    split; [reflexivity | apply JsMapFacts.in_values_set].
  - split; [apply onData_chat_spec|]. simpl conversation. rewrite He. simpl app.
    split; [reflexivity|]. intros Hnd. apply firstOccurrences_id, Hnd.
Qed.

(** ** Errors and the readiness gate *)

(** X13: an error of the transport ends the loading state too, whatever
    the state before, so after it [sendMessage] does not throw: it appends
    the new line to the chat log and sends it on every connection of the
    map, while the error stays in the error field. *)
Theorem sendMessage_after_error_goes_through error rand1 rand2 msg st :
  let line := {| ChatLine.id := randomId rand1 rand2;
                 ChatLine.sender := match username st with
                                    | Some u => u
                                    | None => "seed"
                                    end;
                 ChatLine.content := msg |} in
  exists st1 st2,
    onPeerError error st = Returns tt st1 [ConsoleError error; Emit "update"] /\
    isLoading st1 = false /\
    sendMessage rand1 rand2 msg st1 =
      Returns tt st2
        (map (fun conn => ConnSend conn (ChatMessage [line]))
             (JsMap.values (connections st))) /\
    conversation st2 = (conversation st ++ [line])%list /\
    connections st2 = connections st /\
    lastError st2 = lastError st1 /\
    lastError st2 <> None.
Proof.
  intros line. eexists _, _. split; [apply onPeerError_spec|].
  split; [reflexivity|].
  split; [rewrite sendMessage_spec; reflexivity|].
  split; [reflexivity|]. split; [reflexivity|]. split; [reflexivity|discriminate].
Qed.

(** ** What holds along every run *)

Section StepYields.
Variable I : MessagingPeer -> Prop.
Variable P : Effect -> Prop.
Hypothesis P_debug : forall text, P (ConsoleDebug text).
Hypothesis P_console_error : forall e, P (ConsoleError e).
Hypothesis P_emit : forall event, P (Emit event).
Hypothesis P_send : forall conn msg, P (ConnSend conn msg).
Hypothesis H_dial : forall pid st,
  I st -> dialGuard st pid = false ->
  I (afterDial pid st) /\ P (Connect pid (dialOpts st)).
Hypothesis H_attach : forall conn st,
  I st -> I (set_listening (listening st ++ [conn]) st).
Hypothesis H_merge : forall lines st,
  I st ->
  I (set_conversation (firstOccurrences ChatLine.id (conversation st ++ lines)) st).
Hypothesis H_push : forall line st,
  I st -> isLoading st = false ->
  I (set_conversation (conversation st ++ [line]) st).
Hypothesis H_open : forall st, I st -> I (set_lastError None (set_isLoading false st)).
Hypothesis H_error : forall e st,
  I st -> I (set_lastError (Some e) (set_isLoading false st)).
Hypothesis H_delete : forall k st,
  I st -> I (set_connections (JsMap.delete k (connections st)) st).
Hypothesis H_set : forall conn st,
  I st ->
  I (set_connections (JsMap.set (DataConnection.peer conn) conn (connections st)) st).
Hypothesis H_disconnect : forall st, I st -> I (set_disconnected true st).

Lemma yields_ret A (a : A) : yields I P (ret a).
Proof. intros st H. split; [exact H | constructor]. Qed.

Lemma yields_bind A B (m : M A) (k : A -> M B) :
  yields I P m -> (forall a, yields I P (k a)) -> yields I P (bind m k).
Proof.
  intros Hm Hk st H. unfold bind. specialize (Hm st H).
  destruct (m st) as [a st1 out1|e st1 out1|]; simpl in Hm; [|exact Hm|exact Hm].
  destruct Hm as [H1 Hout1]. specialize (Hk a st1 H1).
  destruct (k a st1) as [b st2 out2|e st2 out2|]; simpl in *; [| |exact Hk];
    destruct Hk as [H2 Hout2]; (split; [exact H2 | apply Forall_app; auto]).
Qed.

Lemma yields_times n (m : M unit) : yields I P m -> yields I P (times n m).
Proof.
  intros Hm. induction n as [|n IH]; simpl.
  - apply yields_ret.
  - apply yields_bind; [exact Hm | intros _; exact IH].
Qed.

Lemma yields_fire conn (listener : M unit) :
  yields I P listener -> yields I P (fire conn listener).
Proof.
  intros Hl st H. unfold fire, bind at 1, this.
  pose proof (@yields_times (count_occ DataConnection.eq_dec (listening st) conn)
                listener Hl st H) as Ht.
  destruct (times (count_occ DataConnection.eq_dec (listening st) conn) listener st);
    exact Ht.
Qed.

Lemma yields_dialAll targets st :
  I st -> (forall pid, In pid targets -> dialGuard st pid = false) ->
  I (dialAll targets st) /\ Forall P (dialAllOutput targets st).
Proof.
  revert st. induction targets as [|pid l IH]; intros st H Hg.
  - split; [exact H | constructor].
  - destruct (H_dial pid H (Hg pid (or_introl eq_refl))) as [H1 Hp].
    destruct (IH (afterDial pid st) H1) as [H2 Hout].
    { intros q Hq. apply (Hg q). right. exact Hq. }
    split; [exact H2|]. simpl. constructor; [apply P_debug|].
    constructor; [exact Hp | exact Hout].
Qed.

Lemma yields_dialTargets peerIds st :
  I st ->
  I (dialAll (dialTargets st peerIds) st) /\
  Forall P (dialAllOutput (dialTargets st peerIds) st).
Proof.
  intros H. apply yields_dialAll; [exact H|].
  intros pid Hp. apply filter_In in Hp. apply negb_true_iff. tauto.
Qed.

Lemma yields_failedDial pid st :
  I st -> I (failedDial st) /\ Forall P (failedDialOutput pid st).
Proof.
  intros H. split; [apply H_error, H | repeat constructor; auto].
Qed.

Lemma yields_dialOutcome peerIds st :
  I st -> yieldsAt I P (dialOutcome st peerIds).
Proof.
  intros H. unfold dialOutcome. destruct (disconnected st).
  - destruct (dialTargets st peerIds) as [|pid rest].
    + split; [exact H | constructor].
    + apply yields_failedDial, H.
  - apply yields_dialTargets, H.
Qed.

Lemma Forall_sendOutput msg conns : Forall P (sendOutput msg conns).
Proof.
  unfold sendOutput. apply Forall_forall. intros e He.
  apply in_map_iff in He. destruct He as [c [<- _]]. apply P_send.
Qed.

Lemma yields_step ev : yields I P (step ev).
Proof.
  destruct ev; simpl.
  - intros st H. rewrite onPeerError_spec. split; [apply H_error, H|].
    repeat constructor; auto.
  - intros st H. rewrite onPeerConnection_spec. cbv zeta.
    destruct (JsMap.has (DataConnection.peer conn) (connections st)).
    + split; [exact H | repeat constructor; auto].
    + destruct (DataConnection.metadata conn) as [md|].
      * pose proof (yields_dialOutcome
                      (match Metadata.peerIds md with Some l => l | None => [] end) H)
          as Hy.
        destruct (dialOutcome st match Metadata.peerIds md with
                                 | Some l => l
                                 | None => []
                                 end) as [[] s out|e s out|];
          simpl in Hy; [| |exact Hy]; destruct Hy as [H1 Hout].
        -- split; [apply H_attach, H1 | constructor; auto].
        -- split; [exact H1 | constructor; auto].
      * split; [exact H | repeat constructor; auto].
  - intros st H. rewrite onPeerOpen_spec. cbv zeta.
    pose proof (H_open H) as H1.
    destruct (dialGuard (set_lastError None (set_isLoading false st)) PeerIDSeed)
      eqn:E.
    + split; [exact H1 | repeat constructor; auto].
    + destruct (disconnected st).
      * destruct (yields_failedDial PeerIDSeed H1) as [H2 Hout].
        split; [exact H2 | repeat constructor; auto].
      * destruct (H_dial PeerIDSeed H1 E) as [H2 Hp].
        split; [exact H2 | repeat constructor; auto].
  - apply yields_fire. intros st H. destruct data as [peerIds|lines].
    + rewrite onData_seeds_spec. cbv zeta.
      pose proof (yields_dialOutcome peerIds H) as Hy.
      destruct (dialOutcome st peerIds) as [[] s out|e s out|];
        simpl in Hy; [| |exact Hy]; destruct Hy as [H1 Hout].
      * split; [exact H1|]. constructor; [apply P_debug|].
        apply Forall_app. split; [exact Hout | repeat constructor; auto].
      * split; [exact H1|]. constructor; [apply P_debug | exact Hout].
    + rewrite onData_chat_spec. split; [apply H_merge, H|].
      repeat constructor; auto.
  - apply yields_fire. intros st H. split; [apply H_delete, H | constructor].
  - apply yields_fire. intros st H. split; [apply H_delete, H | constructor].
  - apply yields_fire. intros st H. rewrite onOpen_spec. cbv zeta.
    split; [apply H_set, H|]. apply Forall_app. split; [apply Forall_sendOutput|].
    apply Forall_app. split; [apply Forall_sendOutput|]. repeat constructor; auto.
  - intros st H. rewrite sendMessage_spec. destruct (isLoading st) eqn:E.
    + split; [exact H | constructor].
    + split; [apply H_push; assumption | apply Forall_sendOutput].
  - intros st H. split; [apply H_disconnect, H | constructor].
Qed.

Lemma run_yields evs st :
  I st -> exists st' out, run evs st = Some (st', out) /\ I st' /\ Forall P out.
Proof.
  revert st. induction evs as [|ev evs IH]; intros st H; simpl.
  - exists st, []. auto.
  - pose proof (@yields_step ev st H) as Hs.
    destruct (step ev st) as [a st1 out1|e st1 out1|]; simpl in Hs;
      [| |contradiction]; destruct Hs as [H1 Hout1];
      destruct (IH st1 H1) as [st' [out [E [H' Hout]]]]; rewrite E;
      exists st', (out1 ++ out)%list; (split; [reflexivity|]);
      (split; [exact H'|apply Forall_app; auto]).
Qed.
End StepYields.

(** X14: loading ends once. From a state that is not loading, no event -
    not even an error of the transport - brings the loading state back, so
    after any run [sendMessage] still does not throw. *)
Theorem loading_never_returns evs st :
  isLoading st = false ->
  exists st' out,
    run evs st = Some (st', out) /\
    isLoading st' = false /\
    forall rand1 rand2 msg e st'' out',
      sendMessage rand1 rand2 msg st' <> Throws e st'' out'.
Proof.
  intros H.
  destruct (@run_yields (fun s => isLoading s = false) (fun _ => True))
    with (evs := evs) (st := st) as [st' [out [E [H' _]]]]; auto.
  exists st', out. split; [exact E|]. split; [exact H'|].
  intros rand1 rand2 msg e st'' out'. rewrite sendMessage_spec, H'. discriminate.
Qed.

(** X15: no event removes an id from the chat log: every id that the log
    has before a run, it has after it. *)
Theorem chat_ids_never_lost evs st :
  exists st' out,
    run evs st = Some (st', out) /\
    incl (chatIds st) (chatIds st').
Proof.
  destruct (@run_yields (fun s => incl (chatIds st) (chatIds s)) (fun _ => True))
    with (evs := evs) (st := st) as [st' [out [E [H' _]]]]; auto.
  - intros lines s Hs k Hk. unfold chatIds. simpl.
    apply firstOccurrences_keys. rewrite map_app. apply in_or_app. left.
    apply Hs, Hk.
  - intros line s Hs _ k Hk. unfold chatIds. simpl. rewrite map_app.
    apply in_or_app. left. apply Hs, Hk.
  - apply incl_refl.
  - exists st', out. auto.
Qed.

Lemma connectTargets_not_in self out :
  Forall (fun e => match e with
                   | Connect pid _ => pid <> self
                   | _ => True
                   end) out ->
  ~ In self (connectTargets out).
Proof.
  intros HF Hin. unfold connectTargets in Hin. apply in_flat_map in Hin.
  destruct Hin as [e [He Hs]]. rewrite Forall_forall in HF.
  specialize (HF e He). destruct e; simpl in Hs; try contradiction.
  destruct Hs as [->|[]]. apply HF. reflexivity.
Qed.

(** X16: a peer never asks the transport for a connection to its own
    identity, whatever state it starts from and whatever events it is given;
    its identity never changes. *)
Theorem never_dials_itself evs st :
  exists st' out,
    run evs st = Some (st', out) /\
    peerId st' = peerId st /\
    ~ In (peerId st) (connectTargets out).
Proof.
  destruct (@run_yields (fun s => peerId s = peerId st)
              (fun e => match e with
                        | Connect pid _ => pid <> peerId st
                        | _ => True
                        end))
    with (evs := evs) (st := st) as [st' [out [E [H' Hout]]]]; simpl; auto.
  - intros pid s Hs Hg. split; [exact Hs|].
    unfold dialGuard in Hg. apply orb_false_iff in Hg. destruct Hg as [_ Hg].
    apply String.eqb_neq in Hg. congruence.
  - exists st', out. split; [exact E|]. split; [exact H'|].
    apply connectTargets_not_in, Hout.
Qed.

Lemma keyedByPeer_peers st :
  keyedByPeer st ->
  map DataConnection.peer (JsMap.values (connections st)) = JsMap.keys (connections st).
Proof.
  unfold keyedByPeer, JsMap.values, JsMap.keys.
  induction (connections st) as [|[k c] m IH]; intros H; simpl; [reflexivity|].
  inversion H as [|? ? Hk Hm]; subst. simpl in Hk. rewrite Hk, (IH Hm). reflexivity.
Qed.

(** X17: along every run the connection map keeps one entry per identity
    and every entry stays filed under the remote identity of its connection,
    so the connections of the map lead to distinct identities and a message
    sent to all of them reaches each identity once. *)
Theorem connection_map_one_entry_per_identity evs st :
  keyedByPeer st ->
  NoDup (JsMap.keys (connections st)) ->
  exists st' out,
    run evs st = Some (st', out) /\
    keyedByPeer st' /\
    NoDup (JsMap.keys (connections st')) /\
    NoDup (map DataConnection.peer (JsMap.values (connections st'))).
Proof.
  intros HK Hnd.
  destruct (@run_keeps
              (fun s => keyedByPeer s /\ NoDup (JsMap.keys (connections s))) evs)
    with (st := st) as [st' [out [E [HK' Hnd']]]].
  - intros ev _. apply keyedByPeer_step.
  - split; assumption.
  - exists st', out. split; [exact E|]. split; [exact HK'|]. split; [exact Hnd'|].
    rewrite keyedByPeer_peers; assumption.
Qed.

(** ** Generated ids *)

Lemma string_length_append (a b : string) :
  String.length (a ++ b) = String.length a + String.length b.
Proof. induction a as [|c a IH]; simpl; [reflexivity|]. rewrite IH. reflexivity. Qed.

Lemma string_append_assoc (a b c : string) : (a ++ b) ++ c = a ++ (b ++ c).
Proof. induction a as [|x a IH]; simpl; [reflexivity|]. rewrite IH. reflexivity. Qed.

Lemma substringFrom_length n s :
  String.length (substringFrom n s) = String.length s - n.
Proof.
  unfold substringFrom. revert n. induction s as [|c s IH]; intros n.
  - destruct n; reflexivity.
  - destruct n as [|n]; simpl.
    + f_equal. specialize (IH 0). rewrite Nat.sub_0_r in IH. exact IH.
    + apply IH.
Qed.

Lemma string_length_zero (s : string) : String.length s = 0 -> s = "".
Proof. destruct s; [reflexivity | discriminate]. Qed.

Lemma substringFrom_split n s :
  exists head,
    s = head ++ substringFrom n s /\
    String.length head = Nat.min n (String.length s).
Proof.
  unfold substringFrom. revert n. induction s as [|c s IH]; intros n.
  - exists "". destruct n; split; reflexivity.
  - destruct n as [|n].
    + exists "". split; [|reflexivity]. simpl. f_equal.
      destruct (IH 0) as [head [E L]]. simpl in L.
      apply string_length_zero in L. subst head.
      rewrite Nat.sub_0_r in E. exact E.
    + destruct (IH n) as [head [E L]]. exists (String c head). split.
      * simpl. f_equal. exact E.
      * simpl. rewrite L. reflexivity.
Qed.

(** X18: the id that [randomId] builds is what is left of the first random
    string behind its seventh character, a hyphen, and what is left of the
    second behind its seventh character, in this order; so its length is the
    two remainders and one, and from two random strings of at most seven
    characters (a random number with a short rendering in base 36, such as
    0.5) the id is the bare hyphen. *)
Theorem randomId_joins_remainders rand1 rand2 :
  exists head1 rest1 head2 rest2,
    rand1 = head1 ++ rest1 /\
    String.length head1 = Nat.min 7 (String.length rand1) /\
    rand2 = head2 ++ rest2 /\
    String.length head2 = Nat.min 7 (String.length rand2) /\
    randomId rand1 rand2 = rest1 ++ "-" ++ rest2 /\
    String.length (randomId rand1 rand2) =
      (String.length rand1 - 7) + 1 + (String.length rand2 - 7) /\
    (String.length rand1 <= 7 -> String.length rand2 <= 7 ->
     randomId rand1 rand2 = "-").
Proof.
  destruct (substringFrom_split 7 rand1) as [head1 [E1 L1]].
  destruct (substringFrom_split 7 rand2) as [head2 [E2 L2]].
  exists head1, (substringFrom 7 rand1), head2, (substringFrom 7 rand2).
  split; [exact E1|]. split; [exact L1|]. split; [exact E2|]. split; [exact L2|].
  unfold randomId. cbv zeta. split; [reflexivity|]. split.
  - rewrite !string_length_append, !substringFrom_length. simpl. lia.
  - intros H1 H2.
    rewrite (string_length_zero (substringFrom 7 rand1)),
            (string_length_zero (substringFrom 7 rand2));
      [reflexivity| |]; rewrite substringFrom_length; lia.
Qed.

(** ** The text of the chat view *)

Lemma concat_snoc sep (l : list string) x :
  l <> [] -> String.concat sep (l ++ [x]) = String.concat sep l ++ sep ++ x.
Proof.
  induction l as [|y l IH]; intros Hne; [contradiction|].
  destruct l as [|z l].
  - reflexivity.
  - change (String.concat sep ((y :: z :: l) ++ [x]))
      with (y ++ sep ++ String.concat sep ((z :: l) ++ [x])).
    rewrite IH by discriminate.
    change (String.concat sep (y :: z :: l))
      with (y ++ sep ++ String.concat sep (z :: l)).
    rewrite !string_append_assoc. reflexivity.
Qed.

Lemma concat_app sep (a b : list string) :
  a <> [] -> b <> [] ->
  String.concat sep (a ++ b) = String.concat sep a ++ sep ++ String.concat sep b.
Proof.
  induction a as [|y a IH]; intros Ha Hb; [contradiction|].
  destruct a as [|z a].
  - destruct b; [contradiction | reflexivity].
  - change (String.concat sep ((y :: z :: a) ++ b))
      with (y ++ sep ++ String.concat sep ((z :: a) ++ b)).
    rewrite IH by (discriminate || assumption).
    change (String.concat sep (y :: z :: a))
      with (y ++ sep ++ String.concat sep (z :: a)).
    rewrite !string_append_assoc. reflexivity.
Qed.

Lemma chatHistory_not_short chat :
  chat <> [] -> 2 <= String.length (chatHistory chat).
Proof.
  destruct chat as [|l chat]; intros H; [contradiction|].
  assert (Hl : 2 <= String.length (renderLine l)).
  { unfold renderLine. rewrite !string_length_append. simpl. lia. }
  unfold chatHistory. simpl map. destruct (map renderLine chat) as [|x xs].
  - exact Hl.
  - change (String.concat newline (renderLine l :: x :: xs))
      with (renderLine l ++ newline ++ String.concat newline (x :: xs)).
    rewrite string_length_append. lia.
Qed.

(** X19: the text of the chat view is the renderings "sender: content" of
    the chat lines, joined by newlines: empty for an empty chat (and for a
    peer that does not exist yet), the rendering alone for a chat of one
    line, and for a chat followed by further lines the text of the chat, a
    newline and the text of the further lines; so the text gets strictly
    longer whenever lines are appended to the chat. *)
Theorem chatHistory_grows chat more l :
  chatHistory (pageChat None) = "" /\
  chatHistory [] = "" /\
  chatHistory [l] = ChatLine.sender l ++ ": " ++ ChatLine.content l /\
  (chat <> [] -> more <> [] ->
   chatHistory (chat ++ more) = chatHistory chat ++ newline ++ chatHistory more) /\
  (more <> [] ->
   String.length (chatHistory chat) < String.length (chatHistory (chat ++ more))).
Proof.
  assert (Happ : chat <> [] -> more <> [] ->
            chatHistory (chat ++ more)
            = chatHistory chat ++ newline ++ chatHistory more).
  { intros Hc Hm. unfold chatHistory. rewrite map_app.
    apply concat_app; intros E; apply map_eq_nil in E; contradiction. }
  split; [reflexivity|]. split; [reflexivity|]. split; [reflexivity|].
  split; [exact Happ|]. intros Hm.
  pose proof (chatHistory_not_short Hm) as H2.
  destruct chat as [|x chat].
  - simpl app. change (chatHistory []) with "". simpl String.length. lia.
  - rewrite Happ by (discriminate || assumption).
    rewrite !string_length_append. simpl. lia.
Qed.

(** ** Gossip between peers *)

Lemma jsmap_in_values_delete k (m : JsMap.t DataConnection.t) c :
  In c (JsMap.values (JsMap.delete k m)) <->
  exists k', In (k', c) m /\ k' <> k.
Proof.
  unfold JsMap.values, JsMap.delete. rewrite in_map_iff. split.
  - intros [[k' c'] [E H]]. simpl in E. subst c'. apply filter_In in H.
    destruct H as [H Hk]. simpl in Hk. apply negb_true_iff, String.eqb_neq in Hk.
    exists k'. split; [exact H | congruence].
  - intros [k' [H Hk]]. exists (k', c). split; [reflexivity|].
    apply filter_In. split; [exact H|]. simpl.
    apply negb_true_iff, String.eqb_neq. congruence.
Qed.

(** X20: after a connection has closed, [sendMessage] sends nothing to
    its identity: it appends the new line - the generated id, the sender,
    the given text - to the chat log, and what it sends is that line alone,
    on every connection of the map to another identity and on no other (in a
    state whose entries are filed under the remote identity of their
    connection, as they are along every run). *)
Theorem closed_identity_gets_no_more_lines conn rand1 rand2 msg st :
  keyedByPeer st ->
  isLoading st = false ->
  let line := {| ChatLine.id := randomId rand1 rand2;
                 ChatLine.sender := match username st with
                                    | Some u => u
                                    | None => "seed"
                                    end;
                 ChatLine.content := msg |} in
  exists st1 st2 out,
    onClose conn st = Returns tt st1 [] /\
    sendMessage rand1 rand2 msg st1 = Returns tt st2 out /\
    conversation st2 = (conversation st ++ [line])%list /\
    (forall c m, In (ConnSend c m) out ->
                 m = ChatMessage [line] /\
                 DataConnection.peer c <> DataConnection.peer conn) /\
    (forall c, In c (JsMap.values (connections st)) ->
               DataConnection.peer c <> DataConnection.peer conn ->
               In (ConnSend c (ChatMessage [line])) out).
Proof.
  intros HK Hl line. eexists _, _, _. split; [reflexivity|].
  split; [rewrite sendMessage_spec; simpl isLoading; rewrite Hl; reflexivity|].
  split; [reflexivity|].
  unfold keyedByPeer in HK. rewrite Forall_forall in HK. simpl connections. split.
  - intros c m H. apply in_sendOutput in H. destruct H as [Hm H].
    split; [exact Hm|].
    apply jsmap_in_values_delete in H. destruct H as [k' [Hin Hk]].
    specialize (HK _ Hin). simpl in HK. congruence.
  - intros c Hc Hne. apply in_sendOutput. split; [reflexivity|].
    apply jsmap_in_values_delete. unfold JsMap.values in Hc.
    apply in_map_iff in Hc. destruct Hc as [[k' c'] [E Hin]]. simpl in E. subst c'.
    exists k'. split; [exact Hin|]. specialize (HK _ Hin). simpl in HK. congruence.
Qed.

(** X21: how the mesh grows. When a connection opens at a peer, every
    connection of its map is sent the list of all identities of the map, the
    new one and the older ones; a peer that receives this list while it is
    connected to the server asks for a connection to each identity of it
    that it has no connection to and that is not its own. *)
Theorem opened_connection_is_announced hub conn recipient via k :
  (k = DataConnection.peer conn \/ In k (JsMap.keys (connections hub))) ->
  JsMap.has k (connections recipient) = false ->
  k <> peerId recipient ->
  disconnected recipient = false ->
  exists hub' out peerIds recipient' out',
    onOpen conn hub = Returns tt hub' out /\
    (forall c, In c (JsMap.values (connections hub')) ->
               In (ConnSend c (SeedsMessage peerIds)) out) /\
    In conn (JsMap.values (connections hub')) /\
    In (DataConnection.peer conn) peerIds /\
    incl (JsMap.keys (connections hub)) peerIds /\
    onData via (SeedsMessage peerIds) recipient = Returns tt recipient' out' /\
    In k (connectTargets out').
Proof.
  intros Hk Hhas Hne Hon. eexists _, _, _, _, _.
  split; [apply onOpen_spec|]. simpl connections.
  split; [|split; [|split; [|split; [|split]]]].
  - intros c Hc. apply in_or_app. left. apply in_sendOutput. auto.
  - apply JsMapFacts.in_values_set.
  - apply JsMapFacts.in_keys_set. auto.
  - intros x Hx. apply JsMapFacts.in_keys_set. auto.
  - rewrite onData_seeds_spec, (dialOutcome_online _ _ (or_introl Hon)).
    reflexivity.
  - cbn [connectTargets flat_map app].
    fold (connectTargets
            (dialAllOutput
               (dialTargets recipient
                  (JsMap.keys (JsMap.set (DataConnection.peer conn) conn
                                 (connections hub)))) recipient
             ++ [Emit "update"])).
    rewrite connectTargets_app, connectTargets_dialAllOutput.
    apply in_or_app. left. unfold dialTargets. apply filter_In. split.
    + apply JsMapFacts.in_keys_set. destruct Hk; auto.
    + unfold dialGuard. rewrite Hhas. simpl.
      apply negb_true_iff, String.eqb_neq, Hne.
Qed.

(** ** The further statements on the sample inputs *)

Lemma onData_seeds_dials_unknown_witness :
  (exists st' out,
     onData connA (SeedsMessage sampleSeeds) seedWithA = Returns tt st' out /\
     connectTargets out = ["407d10227d90-erin"; "407d10227d90-frank"] /\
     In (Emit "update") out) /\
  (exists st',
     onData connA (SeedsMessage sampleSeeds) seedOffline =
       Throws TypeError st'
         [ConsoleDebug "[407d10227d90] peer 407d10227d90-a sent a message type=seeds";
          ConsoleDebug "[407d10227d90] connecting to 407d10227d90-erin";
          ConsoleError disconnectedError;
          Emit "update"] /\
     lastError st' = Some (ErrorRaw disconnectedError) /\
     listening st' = listening seedOffline).
Proof.
  split.
  - destruct (proj1 (onData_seeds_dials_unknown connA sampleSeeds seedWithA)
                (or_introl eq_refl)) as [st' [out [E [Ht [_ [Hu _]]]]]].
    exists st', out. split; [exact E|]. split; [exact Ht | exact Hu].
  - destruct (proj2 (onData_seeds_dials_unknown connA sampleSeeds seedOffline)
                eq_refl "407d10227d90-erin" ["407d10227d90-frank"] eq_refl)
      as [st' [E [He [_ [_ [_ [Hl _]]]]]]].
    exists st'. split; [exact E|]. split; [exact He | exact Hl].
Defined.

Lemma onPeerConnection_dials_listed_witness :
  (exists st' out,
     onPeerConnection daveConn seedWithA = Returns tt st' out /\
     connectTargets out = ["407d10227d90-erin"; "407d10227d90-erin"] /\
     connections st' = connections seedWithA) /\
  (exists st',
     onPeerConnection daveConn seedOffline =
       Throws TypeError st'
         [ConsoleDebug "[407d10227d90] peer 407d10227d90-dave reached us";
          ConsoleDebug "[407d10227d90] connecting to 407d10227d90-erin";
          ConsoleError disconnectedError;
          Emit "update"] /\
     listening st' = listening seedOffline).
Proof.
  split.
  - destruct (proj1 (@onPeerConnection_dials_listed daveConn
                (Metadata.mk (Some ["407d10227d90"; "407d10227d90-a";
                                    "407d10227d90-erin"; "407d10227d90-erin"]))
                seedWithA eq_refl eq_refl) (or_introl eq_refl))
      as [st' [out [E [Ht [Hc _]]]]].
    exists st', out. split; [exact E|]. split; [exact Ht | exact Hc].
  - destruct (proj2 (@onPeerConnection_dials_listed daveConn
                (Metadata.mk (Some ["407d10227d90"; "407d10227d90-a";
                                    "407d10227d90-erin"; "407d10227d90-erin"]))
                seedOffline eq_refl eq_refl)
                eq_refl "407d10227d90-erin" ["407d10227d90-erin"] eq_refl)
      as [st' [E [_ [_ Hl]]]].
    exists st'. split; [exact E | exact Hl].
Defined.

Lemma onPeerConnection_without_metadata_throws_witness :
  onPeerConnection bareConn seedWithA =
    Throws TypeError seedWithA
      [ConsoleDebug "[407d10227d90] peer 407d10227d90-x reached us"] /\
  step (OpenEvent bareConn) seedWithA = Returns tt seedWithA [].
Proof.
  destruct (@onPeerConnection_without_metadata_throws bareConn seedWithA
              eq_refl eq_refl) as [E H].
  split; [exact E|]. apply H. simpl. intros [F|[F|[]]]; discriminate F.
Defined.

Lemma identity_of_name_witness :
  peerId alicePeer = "407d10227d90-alice" /\
  (peerId (fst (constructor sampleKebab (Some "bob"))) = peerId alicePeer
   <-> sampleKebab "bob" = sampleKebab "alice").
Proof.
  destruct (proj1 (proj2 (identity_of_name sampleKebab (Some "alice")))
              "alice" eq_refl) as [E H]; [discriminate|].
  split; [exact E|]. apply H. discriminate.
Defined.

Lemma onClose_removes_only_that_entry_witness :
  onClose bareConn seedWithA = Returns tt seedWithA [].
Proof.
  destruct (onClose_removes_only_that_entry bareConn seedWithA)
    as [st' [E [_ [_ [_ [_ [_ [_ H]]]]]]]].
  rewrite <- (H eq_refl) at 2. exact E.
Defined.

Lemma open_then_close_restores_witness :
  exists st1 out1,
    onOpen connB seedWithA = Returns tt st1 out1 /\
    JsMap.has "407d10227d90-b" (connections st1) = true /\
    onClose connB st1 = Returns tt seedWithA [].
Proof.
  apply (@open_then_close_restores connB seedWithA). reflexivity.
Defined.

Lemma stale_close_drops_open_connection_witness :
  exists st1 out1 st2,
    onOpen connB seedWithA = Returns tt st1 out1 /\
    In connB (JsMap.values (connections st1)) /\
    onClose connB2 st1 = Returns tt st2 [] /\
    JsMap.has "407d10227d90-b" (connections st2) = false /\
    ~ In "407d10227d90-b" (JsMap.keys (connections st2)).
Proof.
  apply (@stale_close_drops_open_connection connB2 connB seedWithA). reflexivity.
Defined.

Lemma merge_appends_unknown_ids_witness :
  exists st' out added,
    onData connA (ChatMessage [aliceLine; ChatLine.mk "-" "bob" "again"])
           (stateAfter [PeerOpenEvent; SendMessageCall "0.i" "0.9" "hi"] seedPeer)
    = Returns tt st' out /\
    conversation st' = (ChatLine.mk "-" "seed" "hi" :: added)%list /\
    (forall k, In k (map ChatLine.id added) <->
               In k ["82mvyr-1c0qzb"; "-"] /\ ~ In k ["-"]).
Proof.
  destruct (@merge_appends_unknown_ids connA
              [aliceLine; ChatLine.mk "-" "bob" "again"]
              (stateAfter [PeerOpenEvent; SendMessageCall "0.i" "0.9" "hi"] seedPeer))
    as [st' [out [added [E [Hc [_ [_ Hk]]]]]]].
  - repeat constructor. simpl. tauto.
  - exists st', out, added. split; [exact E|]. split; [exact Hc | exact Hk].
Defined.

Lemma sent_line_reaches_receiver_witness :
  exists line sender' out receiver' out',
    sendMessage "0.4fzyo82mvyr" "0.9ix3k1c0qzb" "hello" seedWithA
    = Returns tt sender' out /\
    In (ConnSend connA (ChatMessage [line])) out /\
    onData aliceToSeed (ChatMessage [line]) alicePeer = Returns tt receiver' out' /\
    conversation receiver' = [line] /\
    ChatLine.id line = "82mvyr-1c0qzb" /\ ChatLine.content line = "hello".
Proof.
  destruct (@sent_line_reaches_receiver "0.4fzyo82mvyr" "0.9ix3k1c0qzb" "hello"
              seedWithA aliceToSeed alicePeer eq_refl)
    as [line [s' [out [r' [out' [E [Hid [Hc [_ [Hall [E' [_ [_ Hnew]]]]]]]]]]]]].
  exists line, s', out, r', out'. split; [exact E|].
  split; [apply Hall; simpl; auto|]. split; [exact E'|].
  split; [|split; [exact Hid | exact Hc]].
  destruct Hnew as [before Hb]; [simpl; tauto|].
  pose proof (f_equal (@length _) Hb) as Hlen.
  assert (L : length (conversation r') <= 1).
  { revert E'. rewrite onData_chat_spec. intros E'. inversion E'. simpl.
    destruct (conversation alicePeer); simpl; lia. }
  rewrite length_app in Hlen. simpl in Hlen.
  destruct before; [exact Hb | simpl in Hlen; lia].
Defined.

Lemma history_seeds_empty_peer_witness :
  exists sender' out receiver' out',
    onOpen connB (stateAfter shortRandomEvents seedPeer) = Returns tt sender' out /\
    onData aliceToSeed
      (ChatMessage (conversation (stateAfter shortRandomEvents seedPeer))) alicePeer
    = Returns tt receiver' out' /\
    conversation receiver' = [ChatLine.mk "-" "seed" "hi"].
Proof.
  destruct (@history_seeds_empty_peer connB aliceToSeed
              (stateAfter shortRandomEvents seedPeer) alicePeer eq_refl)
    as [s' [out [r' [out' [E [_ [E' [Hc _]]]]]]]].
  exists s', out, r', out'. split; [exact E|]. split; [exact E' | exact Hc].
Defined.

Lemma loading_never_returns_witness :
  exists st' out,
    run [PeerErrorEvent (PeerError.mk "network" "Lost connection to server.");
         SendMessageCall "0.4fzyo82mvyr" "0.9ix3k1c0qzb" "hello"] seedWithA
    = Some (st', out) /\
    isLoading st' = false.
Proof.
  destruct (@loading_never_returns
              [PeerErrorEvent (PeerError.mk "network" "Lost connection to server.");
               SendMessageCall "0.4fzyo82mvyr" "0.9ix3k1c0qzb" "hello"]
              seedWithA eq_refl) as [st' [out [E [H _]]]].
  exists st', out. split; [exact E | exact H].
Defined.

Lemma connection_map_one_entry_per_identity_witness :
  exists st' out,
    run aliceEvents alicePeer = Some (st', out) /\
    NoDup (map DataConnection.peer (JsMap.values (connections st'))).
Proof.
  destruct (@connection_map_one_entry_per_identity aliceEvents alicePeer)
    as [st' [out [E [_ [_ H]]]]]; [constructor | constructor |].
  exists st', out. split; [exact E | exact H].
Defined.

Lemma randomId_joins_remainders_witness : randomId "0.i" "0.9" = "-".
Proof.
  destruct (randomId_joins_remainders "0.i" "0.9")
    as [h1 [r1 [h2 [r2 [_ [_ [_ [_ [_ [_ H]]]]]]]]]].
  apply H; simpl; lia.
Defined.

Lemma chatHistory_grows_witness :
  chatHistory [ChatLine.mk "-" "seed" "hi"; aliceLine;
               ChatLine.mk "-" "bob" "again"] =
  "seed: hi" ++ newline ++ "alice: hello" ++ newline ++ "bob: again".
Proof.
  apply (proj1 (proj2 (proj2 (proj2
           (chatHistory_grows [ChatLine.mk "-" "seed" "hi"]
                              [aliceLine; ChatLine.mk "-" "bob" "again"]
                              aliceLine))))); discriminate.
Defined.

Lemma closed_identity_gets_no_more_lines_witness :
  exists st1 st2 out,
    onClose connA (stateAfter [OpenEvent connB] seedWithA) = Returns tt st1 [] /\
    sendMessage "0.4fzyo82mvyr" "0.9ix3k1c0qzb" "hello" st1 = Returns tt st2 out /\
    (forall c m, In (ConnSend c m) out ->
                 DataConnection.peer c <> "407d10227d90-a") /\
    In (ConnSend connB (ChatMessage [ChatLine.mk "82mvyr-1c0qzb" "seed" "hello"])) out.
Proof.
  destruct (@closed_identity_gets_no_more_lines connA
              "0.4fzyo82mvyr" "0.9ix3k1c0qzb" "hello"
              (stateAfter [OpenEvent connB] seedWithA))
    as [st1 [st2 [out [E1 [E2 [_ [Hnone Hall]]]]]]].
  - repeat constructor.
  - reflexivity.
  - exists st1, st2, out. split; [exact E1|]. split; [exact E2|].
    split; [intros c m H; apply (Hnone c m H)|].
    apply Hall; [simpl; auto | discriminate].
Defined.

Lemma opened_connection_is_announced_witness :
  exists hub' out peerIds recipient' out',
    onOpen connB seedWithA = Returns tt hub' out /\
    In (ConnSend connA (SeedsMessage peerIds)) out /\
    onData aliceToSeed (SeedsMessage peerIds) alicePeer = Returns tt recipient' out' /\
    In "407d10227d90-b" (connectTargets out').
Proof.
  destruct (@opened_connection_is_announced seedWithA connB alicePeer aliceToSeed
              "407d10227d90-b" (or_introl eq_refl) eq_refl)
    as [hub' [out [ids [r' [out' [E [Hall [_ [_ [_ [E' Hk]]]]]]]]]]];
    [discriminate | reflexivity |].
  exists hub', out, ids, r', out'. split; [exact E|].
  split; [|split; [exact E' | exact Hk]].
  apply Hall. revert E. rewrite onOpen_spec. intros E. inversion E. simpl. auto.
Defined.
